(** * Term standardisation service: matching, extraction and replacement

    A shallow embedding of [backend/services/term_service.py] together with
    the two collaborators it calls, [DataLoader.search_exact]
    ([data_loader.py]) and [VectorService.search_similar]
    ([vector_service.py]), followed by the properties of the matcher, the
    text extractor, the identification pass and the replacement pass.

    Conventions of the embedding
    - a Python [str] is the list of its code points ([list N]); the empty
      string is the only falsy one;
    - a Python [float] is an exact rational ([Q]); [round(x, n)] rounds half
      to even on the decimal scale [10^n];
    - the parts of the Python runtime that depend on the Unicode database
      (case mapping, alphanumeric and white-space classes outside ASCII) and
      the replacement-template parser of [re.sub] are fields of the class
      [PyRuntime]; on ASCII the embedding computes by itself;
    - a call that may raise returns an [outcome];
    - logging has no influence on any returned value and is left out. *)

From Stdlib Require Import ZArith NArith QArith Qround Lqa String Ascii.
From Stdlib Require Import Sorting.Sorted Permutation.
From stdpp Require Import base decidable option list sets gmap.

Local Open Scope N_scope.

(** ** Strings and the Python runtime *)

Abbreviation str := (list N).

(** ASCII text written as a Rocq string literal. *)
Definition py (s : string) : str := map N_of_ascii (list_ascii_of_string s).

Inductive exn : Type :=
  | RuntimeError
  | ZeroDivisionError
  | ReError
  | BackendError (code : N).

Inductive outcome (A : Type) : Type :=
  | Returns (a : A)
  | Raises (e : exn).
Arguments Returns {A} a.
Arguments Raises {A} e.

#[global] Instance outcome_ret : MRet outcome := @Returns.
#[global] Instance outcome_bind : MBind outcome := fun A B k m =>
  match m with
  | Returns a => k a
  | Raises e => Raises e
  end.

(** What the interpreter supplies beyond ASCII.  [uni_lower] is [str.lower]
    on a string that holds a code point above 127; [uni_isalnum] and
    [uni_isspace] classify such code points for [\b] and [\s];
    [uni_ieq p c] tells whether pattern character [p] matches text
    character [c] under [re.IGNORECASE] when one of them is not ASCII;
    [parse_template] is the expansion of a replacement string that holds a
    backslash, as a function of the matched text, or the error it raises. *)
Class PyRuntime : Type := {
  uni_lower : str -> str;
  uni_isalnum : N -> bool;
  uni_isspace : N -> bool;
  uni_ieq : N -> N -> bool;
  parse_template : str -> outcome (str -> str)
}.

Definition is_ascii (c : N) : bool := c <? 128.

Definition in_range (lo hi c : N) : bool := (lo <=? c) && (c <=? hi).

Definition is_upper (c : N) : bool := in_range 65 90 c.
Definition is_lower (c : N) : bool := in_range 97 122 c.
Definition is_letter (c : N) : bool := is_upper c || is_lower c.
Definition is_digit (c : N) : bool := in_range 48 57 c.

Definition ascii_lower (c : N) : N := if is_upper c then c + 32 else c.

Section Runtime.
Context {runtime : PyRuntime}.

(** [str.lower()] *)
Definition lower (s : str) : str :=
  if forallb is_ascii s then map ascii_lower s else uni_lower s.

(** [\w] of a [str] pattern *)
Definition is_word (c : N) : bool :=
  if is_ascii c then is_letter c || is_digit c || (c =? 95)
  else uni_isalnum c.

(** [\s] of a [str] pattern *)
Definition is_space (c : N) : bool :=
  if is_ascii c then in_range 9 13 c || in_range 28 32 c
  else uni_isspace c.

(** a literal pattern character against a text character *)
Definition lit_match (ignorecase : bool) (p c : N) : bool :=
  if ignorecase then
    if is_ascii p && is_ascii c then ascii_lower p =? ascii_lower c
    else uni_ieq p c
  else p =? c.
End Runtime.

(** A runtime that knows ASCII only; enough to evaluate ASCII examples. *)
Definition ascii_runtime : PyRuntime := {|
  uni_lower := fun s => s;
  uni_isalnum := fun _ => false;
  uni_isspace := fun _ => false;
  uni_ieq := N.eqb;
  parse_template := fun _ => Raises ReError
|}.


(** ** Floats

    [round(x, ndigits)]: the nearest multiple of [10^-ndigits], ties going
    to the even one. *)

Definition round_half_even (x : Q) : Z :=
  let f := Qfloor x in
  match Qcompare (x - inject_Z f) (1 # 2) with
  | Lt => f
  | Gt => (f + 1)%Z
  | Eq => if Z.even f then f else (f + 1)%Z
  end.

Definition py_round (x : Q) (ndigits : nat) : Q :=
  let scale := (10 ^ Z.of_nat ndigits)%Z in
  Qred (Qmake (round_half_even (x * inject_Z scale)) (Z.to_pos scale)).

(** ** The result dictionaries

    One record per dictionary shape; a key that some return statement
    leaves out is an [option] field, [None] standing for the absent key. *)

Inductive MatchType : Type := Exact | Semantic | SemanticLow | NoMatch.

#[global] Instance MatchType_eq_dec : EqDecision MatchType.
Proof. solve_decision. Defined.

(** The ['message'] strings, with the threshold they format kept as data. *)
Inductive Message : Type :=
  | MsgEmptyQuery
  | MsgExact
  | MsgSemantic
  | MsgSemanticLow (threshold : Q)
  | MsgNotFound (threshold : Q)
  | MsgNoText
  | MsgReplaced (identified total : nat).

Module Row.
Record t : Type := mk { term : str; label : option str }.
End Row.

Module ExactHit.
(** an entry of [search_exact]; its ['match_type'] is always ['exact'] *)
Record t : Type := mk { term : str; label : option str }.
End ExactHit.

Module SemResult.
(** an entry of [search_similar]; its ['match_type'] is always
    ['semantic'] *)
Record t : Type := mk { term : str; similarity : Q; distance : Q }.
End SemResult.

Module Candidate.
(** an entry of ['candidates']; its ['source'] is always ['semantic'] *)
Record t : Type := mk { term : str; score : Q; similarity : Q }.
End Candidate.

Module MatchResult.
Record t : Type := mk {
  query : str;
  standard_term : option str;
  score : Q;
  match_type : MatchType;
  similarity : option Q;
  message : Message;
  candidates : list Candidate.t
}.
End MatchResult.

Module SimilarTerm.
Record t : Type := mk { term : str; similarity : Q }.
End SimilarTerm.

Module IdentifiedTerm.
Record t : Type := mk {
  original : str;
  standard : str;
  similarity : Q;
  match_type : MatchType
}.
End IdentifiedTerm.

Module ReplacementRecord.
Record t : Type := mk {
  original : str;
  standard : str;
  count : nat;
  similarity : Q;
  match_type : MatchType
}.
End ReplacementRecord.

Module TextResult.
Record t : Type := mk {
  original_text : str;
  processed_text : str;
  identified_terms : list IdentifiedTerm.t;
  replacements : list ReplacementRecord.t;
  total_replacements : option nat;
  message : Message
}.
End TextResult.

(** ** The services *)

(** [DataLoader] once [load_data] has run. *)
Record DataLoader : Type := { terms_df : list Row.t }.

(** [VectorService]: the flag set by [initialize], and the embedding model
    with the vector index behind it, [collection_query query n_results]
    standing for [model.encode] followed by [collection.query]: the
    documents found, each with its distance, or the exception raised. *)
Record VectorService : Type := {
  is_initialized : bool;
  collection_query : str -> Z -> outcome (list (str * Q))
}.

Record TermService : Type := {
  data_loader : DataLoader;
  vector_service : option VectorService
}.

(** [VectorService.search_similar]: the loop over [zip(documents,
    distances)]; [1 / (1 + distance)] raises on a zero denominator. *)
Fixpoint format_results (docs : list (str * Q)) : outcome (list SemResult.t) :=
  match docs with
  | [] => Returns []
  | (doc, distance) :: rest =>
      if Qeq_bool (1 + distance) 0 then Raises ZeroDivisionError
      else
        let similarity := (1 / (1 + distance))%Q in
        formatted ← format_results rest;
        Returns (SemResult.mk doc (py_round similarity 4)
                              (py_round distance 4) :: formatted)
  end.

Definition search_similar (vs : VectorService) (query : str) (top_k : Z)
  : outcome (list SemResult.t) :=
  if negb (is_initialized vs) then Raises RuntimeError
  else if bool_decide (query = []) then Returns []
  else
    results ← collection_query vs query top_k;
    format_results results.

Section Service.
Context {runtime : PyRuntime}.

(** [DataLoader.load_data] after [read_csv]: [dropna] on the term column,
    [drop_duplicates] keeping the first of equal terms, then [str.strip]. *)
Fixpoint lstrip (s : str) : str :=
  match s with
  | c :: s' => if is_space c then lstrip s' else s
  | [] => []
  end.

Definition strip (s : str) : str := rev (lstrip (rev (lstrip s))).

Fixpoint drop_duplicates (seen : list str) (rows : list Row.t) : list Row.t :=
  match rows with
  | [] => []
  | r :: rows' =>
      if bool_decide (Row.term r ∈ seen) then drop_duplicates seen rows'
      else r :: drop_duplicates (Row.term r :: seen) rows'
  end.

Definition load_data (csv : list (option str * option str)) : DataLoader :=
  let dropna :=
    omap (fun r => match r.1 with
                   | Some t => Some (Row.mk t r.2)
                   | None => None
                   end) csv in
  {| terms_df :=
       (fun r => Row.mk (strip (Row.term r)) (Row.label r))
         <$> drop_duplicates [] dropna |}.

(** [DataLoader.search_exact] *)
Definition search_exact (dl : DataLoader) (query : str) : list ExactHit.t :=
  (fun r => ExactHit.mk (Row.term r) (Row.label r))
    <$> filter (fun r => lower (Row.term r) = lower query) (terms_df dl).

(** [TermService.standardize] *)
Definition make_candidate (sem_result : SemResult.t) : Candidate.t :=
  Candidate.mk (SemResult.term sem_result)
               (py_round (SemResult.similarity sem_result * 100) 2)
               (SemResult.similarity sem_result).

Definition not_found (query : str) (semantic_threshold : Q) : MatchResult.t :=
  MatchResult.mk query None 0 NoMatch None (MsgNotFound semantic_threshold) [].

Definition standardize (ts : TermService) (query : str)
    (semantic_threshold : Q) : MatchResult.t :=
  if bool_decide (query = []) then
    MatchResult.mk query None 0 NoMatch None MsgEmptyQuery []
  else
    match search_exact (data_loader ts) query with
    | hit :: _ =>
        MatchResult.mk query (Some (ExactHit.term hit)) 100 Exact (Some 1%Q)
                       MsgExact []
    | [] =>
        match vector_service ts with
        | Some vs =>
            if is_initialized vs then
              match search_similar vs query 5 with
              | Returns ((best_semantic :: _) as semantic_results) =>
                  let semantic_similarity :=
                    SemResult.similarity best_semantic in
                  let candidates := make_candidate <$> semantic_results in
                  if Qle_bool semantic_threshold semantic_similarity then
                    MatchResult.mk query
                      (Some (SemResult.term best_semantic))
                      (py_round (semantic_similarity * 100) 2)
                      Semantic
                      (Some (py_round semantic_similarity 4))
                      MsgSemantic candidates
                  else
                    MatchResult.mk query None
                      (py_round (semantic_similarity * 100) 2)
                      SemanticLow
                      (Some (py_round semantic_similarity 4))
                      (MsgSemanticLow semantic_threshold) candidates
              | Returns [] => not_found query semantic_threshold
              | Raises _ => not_found query semantic_threshold
              end
            else not_found query semantic_threshold
        | None => not_found query semantic_threshold
        end
    end.

(** [TermService.get_similar_terms] *)
Fixpoint similar_loop (term : str) (limit : Z) (threshold : Q)
    (results : list SemResult.t) (similar_terms : list SimilarTerm.t)
  : list SimilarTerm.t :=
  match results with
  | [] => similar_terms
  | result :: rest =>
      if bool_decide (lower (SemResult.term result) ≠ lower term)
         && Qle_bool threshold (SemResult.similarity result)
      then
        let similar_terms' :=
          similar_terms ++
            [SimilarTerm.mk (SemResult.term result)
                            (py_round (SemResult.similarity result) 4)] in
        if (limit <=? Z.of_nat (length similar_terms'))%Z
        then similar_terms'
        else similar_loop term limit threshold rest similar_terms'
      else similar_loop term limit threshold rest similar_terms
  end.

Definition get_similar_terms (ts : TermService) (term : str) (limit : Z)
    (threshold : Q) : list SimilarTerm.t :=
  match vector_service ts with
  | Some vs =>
      if negb (is_initialized vs) then []
      else
        match search_similar vs term (limit + 5) with
        | Returns results => similar_loop term limit threshold results []
        | Raises _ => []
        end
  | None => []
  end.
End Service.

(** ** Regular expressions

    The fragment of [re] the service uses: sequences of word boundaries,
    literals, character classes and greedy repeats of a class.  Matching
    backtracks in the order of the [sre] engine: a repeat first takes all
    it can and gives characters back one at a time. *)

Inductive atom : Type :=
  | Bound
  | Lit (c : N)
  | Cls (p : N -> bool)
  | Rep (p : N -> bool) (lo : nat) (hi : option nat).

Abbreviation regex := (list atom).

Inductive piece : Type :=
  | Skip (c : N)
  | Hit (w : str).

(** how many leading characters of [s] are in [p], at most [cap] *)
Fixpoint span (p : N -> bool) (cap : option nat) (s : str) : nat :=
  match s, cap with
  | _, Some O => O
  | c :: s', _ => if p c then S (span p (pred <$> cap) s') else O
  | [], _ => O
  end.

(** [f k], else [f (k-1)], ... down to [f lo] *)
Fixpoint try_down (k lo : nat) (f : nat -> option nat) : option nat :=
  match f k with
  | Some r => Some r
  | None =>
      match k with
      | S k' => if (lo <=? k')%nat then try_down k' lo f else None
      | O => None
      end
  end.

(** the character before the position reached after consuming [w] *)
Definition prev_after (prev : option N) (w : str) : option N :=
  match last w with
  | Some c => Some c
  | None => prev
  end.

Definition the_hit (p : piece) : option str :=
  match p with
  | Hit w => Some w
  | Skip _ => None
  end.

Section Regex.
Context {runtime : PyRuntime}.

Definition at_boundary (prev : option N) (s : str) : bool :=
  xorb (from_option is_word false prev) (from_option is_word false (head s)).

(** the length of the match of [re] that starts here, if there is one *)
Fixpoint match_here (ignorecase : bool) (re : regex) (prev : option N)
    (s : str) : option nat :=
  match re with
  | [] => Some O
  | Bound :: re' =>
      if at_boundary prev s then match_here ignorecase re' prev s else None
  | Lit p :: re' =>
      match s with
      | c :: s' =>
          if lit_match ignorecase p c
          then S <$> match_here ignorecase re' (Some c) s'
          else None
      | [] => None
      end
  | Cls p :: re' =>
      match s with
      | c :: s' =>
          if p c then S <$> match_here ignorecase re' (Some c) s' else None
      | [] => None
      end
  | Rep p lo hi :: re' =>
      let n := span p hi s in
      if (n <? lo)%nat then None
      else
        try_down n lo (fun k =>
          Nat.add k <$>
            match_here ignorecase re' (prev_after prev (take k s)) (drop k s))
  end.

(** the left-to-right scan shared by [findall] and [sub]: the text cut
    into matches and the characters between them *)
Fixpoint scan (fuel : nat) (ignorecase : bool) (re : regex)
    (prev : option N) (s : str) : list piece :=
  match fuel with
  | O => []
  | S fuel' =>
      let advance :=
        match s with
        | c :: s' => Skip c :: scan fuel' ignorecase re (Some c) s'
        | [] => []
        end in
      match match_here ignorecase re prev s with
      | Some (S n) =>
          let w := take (S n) s in
          Hit w :: scan fuel' ignorecase re (prev_after prev w) (drop (S n) s)
      | Some O => Hit [] :: advance
      | None => advance
      end
  end.

Definition finditer (ignorecase : bool) (re : regex) (s : str) : list piece :=
  scan (S (length s)) ignorecase re None s.

(** [re.findall(pattern, s)] for a pattern without groups *)
Definition findall (ignorecase : bool) (re : regex) (s : str) : list str :=
  omap the_hit (finditer ignorecase re s).

(** the replacement argument of [re.sub]: taken literally unless it holds
    a backslash *)
Definition compile_template (repl : str) : outcome (str -> str) :=
  if bool_decide (92 ∈ repl) then parse_template repl
  else Returns (fun _ => repl).

Definition expand_piece (expand : str -> str) (p : piece) : str :=
  match p with
  | Hit w => expand w
  | Skip c => [c]
  end.

(** [re.sub(pattern, repl, s)] *)
Definition re_sub (ignorecase : bool) (re : regex) (repl s : str)
  : outcome str :=
  expand ← compile_template repl;
  Returns (concat (expand_piece expand <$> finditer ignorecase re s)).

(** *** The patterns of [identify_and_replace_terms] *)

(** [[A-Za-z0-9\-/\&]] *)
Definition is_tail_char (c : N) : bool :=
  is_letter c || is_digit c || (c =? 45) || (c =? 47) || (c =? 38).

(** [[一-鿿]] *)
Definition is_cjk (c : N) : bool := in_range 0x4e00 0x9fff c.

(** [[A-Za-z][A-Za-z0-9\-/\&]*] *)
Definition token : regex := [Cls is_letter; Rep is_tail_char 0 None].

Definition single_word_re : regex := [Bound] ++ token ++ [Bound].

Definition bigram_re : regex :=
  [Bound] ++ token ++ [Rep is_space 1 None] ++ token ++ [Bound].

Definition trigram_re : regex :=
  [Bound] ++ token ++ [Rep is_space 1 None] ++ token
          ++ [Rep is_space 1 None] ++ token ++ [Bound].

Definition chinese_re : regex := [Rep is_cjk 2 (Some 6%nat)].

(** [r'\b' + re.escape(original) + r'\b'] *)
Definition whole_word_re (original : str) : regex :=
  [Bound] ++ (Lit <$> original) ++ [Bound].
End Regex.

(** ** [TermService.identify_and_replace_terms] *)

(** [sorted(l, key=key, reverse=True)]: descending by key, and stable, the
    elements of equal key keeping the order they have in [l]. *)
Fixpoint insert_desc {A} (key : A -> nat) (x : A) (l : list A) : list A :=
  match l with
  | [] => [x]
  | y :: l' =>
      if (key x <? key y)%nat then y :: insert_desc key x l'
      else x :: y :: l'
  end.

Definition sorted_desc {A} (key : A -> nat) (l : list A) : list A :=
  foldr (insert_desc key) [] l.

(** A call received by the vector service. *)
Inductive call : Type := SearchSimilar (query : str) (top_k : Z).

Definition sum_counts (records : list ReplacementRecord.t) : nat :=
  foldr Nat.add O (ReplacementRecord.count <$> records).

(** the state of the extraction loops, [potential_terms] and [seen], and
    that of the replacement loop, [processed_text] and
    [replacement_records] *)
Abbreviation extraction := (list str * gset str)%type.
Abbreviation replacing := (str * list ReplacementRecord.t)%type.

Section Identify.
Context {runtime : PyRuntime}.

(** *** Extraction: [potential_terms] and [seen] *)

Definition add_unseen (st : extraction) (w : str) : extraction :=
  if bool_decide (lower w ∈ st.2) then st
  else (st.1 ++ [w], {[lower w]} ∪ st.2).

Definition add_word (min_word_length : Z) (st : extraction) (word : str)
  : extraction :=
  if (min_word_length <=? Z.of_nat (length word))%Z
     && negb (bool_decide (lower word ∈ st.2))
  then (st.1 ++ [word], {[lower word]} ∪ st.2)
  else st.

Definition extract_terms (text : str) (min_word_length : Z) : list str :=
  let st : extraction := ([], ∅) in
  let single_words := findall false single_word_re text in
  let st := foldl (add_word min_word_length) st single_words in
  let bigrams := findall false bigram_re text in
  let st := foldl add_unseen st bigrams in
  let trigrams := findall false trigram_re text in
  let st := foldl add_unseen st trigrams in
  let chinese_terms := findall false chinese_re text in
  let st := foldl add_unseen st chinese_terms in
  st.1.

(** *** Identification: one iteration of the loop over [potential_terms]

    The result is what the iteration appends to [identified_terms],
    together with the calls it makes to the vector service.  An exception
    of the iteration is caught by its [except] clause. *)
Definition identify_one (dl : DataLoader) (vs : VectorService)
    (similarity_threshold : Q) (term : str)
  : list IdentifiedTerm.t * list call :=
  match search_exact dl term with
  | hit :: _ =>
      let standard_term := ExactHit.term hit in
      (if bool_decide (term ≠ standard_term)
       then [IdentifiedTerm.mk term standard_term 1 Exact]
       else [],
       [])
  | [] =>
      (match search_similar vs term 1 with
       | Returns (best_match :: _) =>
           if Qle_bool similarity_threshold (SemResult.similarity best_match)
           then
             let standard_term := SemResult.term best_match in
             if bool_decide (lower term ≠ lower standard_term)
             then [IdentifiedTerm.mk term standard_term
                     (SemResult.similarity best_match) Semantic]
             else []
           else []
       | Returns [] => []
       | Raises _ => []
       end,
       [SearchSimilar term 1])
  end.

Definition identification_pass (dl : DataLoader) (vs : VectorService)
    (similarity_threshold : Q) (potential_terms : list str)
  : list IdentifiedTerm.t * list call :=
  foldl (fun acc term =>
           let step := identify_one dl vs similarity_threshold term in
           (acc.1 ++ step.1, acc.2 ++ step.2))
        ([], []) potential_terms.

(** *** Replacement: one iteration of the loop over [sorted_terms] *)

Definition replace_one (st : replacing) (item : IdentifiedTerm.t)
  : outcome replacing :=
  let original := IdentifiedTerm.original item in
  let standard := IdentifiedTerm.standard item in
  let pattern := whole_word_re original in
  let count := length (findall true pattern st.1) in
  if (0 <? count)%nat then
    processed_text ← re_sub true pattern standard st.1;
    Returns (processed_text,
             st.2 ++ [ReplacementRecord.mk original standard count
                        (IdentifiedTerm.similarity item)
                        (IdentifiedTerm.match_type item)])
  else Returns st.

Fixpoint replacement_pass (sorted_terms : list IdentifiedTerm.t)
    (st : replacing) : outcome replacing :=
  match sorted_terms with
  | [] => Returns st
  | item :: rest =>
      st' ← replace_one st item;
      replacement_pass rest st'
  end.

Definition original_length (item : IdentifiedTerm.t) : nat :=
  length (IdentifiedTerm.original item).

(** the vector service when it is there and initialised *)
Definition ready_service (ts : TermService) : option VectorService :=
  match vector_service ts with
  | Some vs => if is_initialized vs then Some vs else None
  | None => None
  end.

Definition identify_and_replace_terms (ts : TermService) (text : str)
    (similarity_threshold : Q) (min_word_length : Z)
  : outcome TextResult.t :=
  match (if bool_decide (text = []) then None else ready_service ts) with
  | None =>
      Returns (TextResult.mk text text [] [] None MsgNoText)
  | Some vs =>
      let potential_terms := extract_terms text min_word_length in
      let identified_terms :=
        (identification_pass (data_loader ts) vs similarity_threshold
                             potential_terms).1 in
      let sorted_terms := sorted_desc original_length identified_terms in
      st ← replacement_pass sorted_terms (text, []);
      Returns (TextResult.mk text st.1 identified_terms st.2
                 (Some (sum_counts st.2))
                 (MsgReplaced (length identified_terms) (sum_counts st.2)))
  end.
End Identify.

Local Close Scope N_scope.

(** * Notions of the specification

    What the properties below are stated with: what a match of a pattern
    is, the shapes of the candidates, whole-word occurrences, and the
    replacement pass as the specification words it. *)

Definition piece_text (p : piece) : str :=
  match p with
  | Hit w => w
  | Skip c => [c]
  end.

Section MatchSpec.
Context {runtime : PyRuntime}.

(** what a match is, atom by atom: [Matches ic re prev s w] when [re]
    matches the prefix [w] of [s], [prev] being the character before *)
Inductive Matches (ic : bool) : regex → option N → str → str → Prop :=
  | Matches_nil prev s : Matches ic [] prev s []
  | Matches_bound re prev s w :
      at_boundary prev s = true →
      Matches ic re prev s w →
      Matches ic (Bound :: re) prev s w
  | Matches_lit p re prev c s w :
      lit_match ic p c = true →
      Matches ic re (Some c) s w →
      Matches ic (Lit p :: re) prev (c :: s) (c :: w)
  | Matches_cls p re prev c s w :
      p c = true →
      Matches ic re (Some c) s w →
      Matches ic (Cls p :: re) prev (c :: s) (c :: w)
  | Matches_rep p lo hi re prev u s w :
      Forall (λ c, p c = true) u →
      lo ≤ length u →
      (∀ h, hi = Some h → length u ≤ h) →
      Matches ic re (prev_after prev u) s w →
      Matches ic (Rep p lo hi :: re) prev (u ++ s) (u ++ w).
End MatchSpec.

(** Keeping the first of the elements of equal key. *)
Fixpoint first_by_key {A K : Type} `{EqDecision K} (key : A → K)
    (l : list A) : list A :=
  match l with
  | [] => []
  | x :: l' => x :: filter (λ y, key y ≠ key x) (first_by_key key l')
  end.

Section Shapes.
Context {runtime : PyRuntime}.

(** a letter, then letters, digits, hyphens, slashes or ampersands *)
Definition is_token (w : str) : Prop :=
  ∃ c u, w = c :: u ∧ is_letter c = true
         ∧ Forall (λ x, is_tail_char x = true) u.

Definition is_spaces (u : str) : Prop :=
  u ≠ [] ∧ Forall (λ x, is_space x = true) u.

Definition is_bigram (w : str) : Prop :=
  ∃ t1 sp t2, w = t1 ++ sp ++ t2
              ∧ is_token t1 ∧ is_spaces sp ∧ is_token t2.

Definition is_trigram (w : str) : Prop :=
  ∃ t1 sp1 t2 sp2 t3, w = t1 ++ sp1 ++ t2 ++ sp2 ++ t3
                      ∧ is_token t1 ∧ is_spaces sp1 ∧ is_token t2
                      ∧ is_spaces sp2 ∧ is_token t3.

Definition is_cjk_run (w : str) : Prop :=
  2 ≤ length w ≤ 6 ∧ Forall (λ x, is_cjk x = true) w.

(** the candidates in the words of the specification: the words that are
    long enough, the two-word phrases, the three-word phrases and the
    CJK runs, in this order, the first of each lower-case key kept *)
Definition spec_candidates (text : str) (min_word_length : Z) : list str :=
  first_by_key lower
    (filter (λ w, (min_word_length ≤ Z.of_nat (length w))%Z)
            (findall false single_word_re text)
     ++ findall false bigram_re text
     ++ findall false trigram_re text
     ++ findall false chinese_re text).
End Shapes.

(** descending order of the keys *)
Definition key_ge {A : Type} (key : A → nat) (a b : A) : Prop :=
  key b ≤ key a.

Section WholeWord.
Context {runtime : PyRuntime}.

(** [w] is [original] up to case *)
Definition ci_equal (original w : str) : Prop :=
  Forall2 (λ p c, lit_match true p c = true) original w.

(** [w], with [prev] before it and [rest] after it, is an occurrence of
    [original] as a whole word *)
Definition whole_word (original : str) (prev : option N) (w rest : str)
  : Prop :=
  ci_equal original w
  ∧ at_boundary prev (w ++ rest) = true
  ∧ at_boundary (prev_after prev w) rest = true.

Definition occurs_at (original : str) (prev : option N) (s : str) : Prop :=
  ∃ w rest, s = w ++ rest ∧ whole_word original prev w rest.

(** the text cut at the occurrences of [original], taken from the left
    and without overlap *)
Inductive Occurrences (original : str) : option N → str → list piece → Prop :=
  | Occurrences_end prev : Occurrences original prev [] []
  | Occurrences_hit prev w rest ps :
      whole_word original prev w rest →
      Occurrences original (prev_after prev w) rest ps →
      Occurrences original prev (w ++ rest) (Hit w :: ps)
  | Occurrences_skip prev c s ps :
      ¬ occurs_at original prev (c :: s) →
      Occurrences original (Some c) s ps →
      Occurrences original prev (c :: s) (Skip c :: ps).

Definition record_of (item : IdentifiedTerm.t) (count : nat)
  : ReplacementRecord.t :=
  ReplacementRecord.mk (IdentifiedTerm.original item)
    (IdentifiedTerm.standard item) count
    (IdentifiedTerm.similarity item) (IdentifiedTerm.match_type item).

(** the replacement pass in the words of the specification: the terms
    are taken in the order given; the occurrences of the original in the
    text as it stands are counted; when there are some, each is replaced
    by the expansion of the standard term and a record with the count is
    emitted; otherwise the text is left alone and nothing is emitted *)
Inductive Replaced : str → list IdentifiedTerm.t → str
                     → list ReplacementRecord.t → Prop :=
  | Replaced_nil text : Replaced text [] text []
  | Replaced_none text item items text' records ps :
      Occurrences (IdentifiedTerm.original item) None text ps →
      omap the_hit ps = [] →
      Replaced text items text' records →
      Replaced text (item :: items) text' records
  | Replaced_some text item items text' records ps expand :
      Occurrences (IdentifiedTerm.original item) None text ps →
      0 < length (omap the_hit ps) →
      compile_template (IdentifiedTerm.standard item) = Returns expand →
      Replaced (concat (expand_piece expand <$> ps)) items text' records →
      Replaced text (item :: items) text'
               (record_of item (length (omap the_hit ps)) :: records).
End WholeWord.

Section SimilarSpec.
Context {runtime : PyRuntime}.

(** what [get_similar_terms] keeps of a retrieved list *)
Definition similar_entry (result : SemResult.t) : SimilarTerm.t :=
  SimilarTerm.mk (SemResult.term result)
                 (py_round (SemResult.similarity result) 4).

Definition similar_enough (term : str) (threshold : Q)
    (result : SemResult.t) : Prop :=
  lower (SemResult.term result) ≠ lower term
  ∧ (threshold <= SemResult.similarity result)%Q.

#[global] Instance similar_enough_dec term threshold result :
  Decision (similar_enough term threshold result).
Proof.
  unfold similar_enough.
  destruct (Qle_bool threshold (SemResult.similarity result)) eqn:E.
  - apply Qle_bool_iff in E.
    destruct (decide (lower (SemResult.term result) ≠ lower term)).
    + left. done.
    + right. tauto.
  - right. intros [_ Hle]. apply Qle_bool_iff in Hle. congruence.
Defined.
End SimilarSpec.

(** * Services used in the worked inputs *)

Section DemoServices.
#[local] Existing Instance ascii_runtime.

Definition demo_index (query : str) (n_results : Z)
  : outcome (list (str * Q)) :=
  if bool_decide (query = py "Risk") then Returns [(py "RiskStd", 0%Q)]
  else if bool_decide (query = py "Credit Risk")
  then Returns [(py "CreditRiskStd", (1 # 4)%Q); (py "RiskStd", 1%Q)]
  else if bool_decide (query = py "API")
  then Returns [(py "Application Programming Interface", 0%Q)]
  else if bool_decide (query = py "boom") then Raises (BackendError 1)
  else Returns [].

Definition demo_vs : VectorService :=
  {| is_initialized := true; collection_query := demo_index |}.

Definition demo_dl : DataLoader :=
  {| terms_df := [Row.mk (py "API") None; Row.mk (py "ROE") (Some (py "ratio"))] |}.

Definition demo_ts : TermService :=
  {| data_loader := demo_dl; vector_service := Some demo_vs |}.

(** the same vector service over an empty dictionary *)
Definition semantic_only_ts : TermService :=
  {| data_loader := {| terms_df := [] |}; vector_service := Some demo_vs |}.

(** the scenario of the specification: the dictionary holds "ROE", and the
    index answers the query 股本回报率 with "ROE" at similarity 0.72, that
    is at distance 7/18 *)
Definition roe_query : str := [0x80a1; 0x672c; 0x56de; 0x62a5; 0x7387]%N.

Definition roe_ts : TermService :=
  {| data_loader :=
       {| terms_df := [Row.mk (py "ROE") (Some (py "return on equity"))] |};
     vector_service :=
       Some {| is_initialized := true;
               collection_query := λ query _,
                 if bool_decide (query = roe_query)
                 then Returns [(py "ROE", (7 # 18)%Q)]
                 else Returns [] |} |}.
End DemoServices.

(** * The other operations of the services

    What the service files hold besides the matcher and the text pass: the
    batch matcher, the remaining methods of [DataLoader], the index
    construction of [VectorService.initialize], the history log
    ([history_service.py]) and the endpoints of [app.py] that call them. *)

(** [l[:n]] for a list and an integer: a negative [n] counts from the end *)
Definition py_prefix {A : Type} (l : list A) (n : Z) : list A :=
  if (0 <=? n)%Z then take (Z.to_nat n) l
  else take (length l - Z.to_nat (- n)) l.

(** [l[index]]: a negative index counts from the end; [None] stands for
    [IndexError] *)
Definition py_index {A : Type} (l : list A) (index : Z) : option A :=
  if (0 <=? index)%Z then l !! Z.to_nat index
  else if (0 <=? index + Z.of_nat (length l))%Z
       then l !! Z.to_nat (index + Z.of_nat (length l))
       else None.

(** [range(0, n, step)] *)
Definition py_range_step (n step : nat) : list nat :=
  (λ k, k * step) <$> seq 0 ((n + step - 1) / step).

(** ** [DataLoader]: the term list, indexing and statistics *)

(** [terms_list], which [load_data] sets to the term column; the methods
    below call [load_data] first when nothing is loaded, and the loader is
    taken here as [load_data] leaves it *)
Definition terms_list (dl : DataLoader) : list str :=
  Row.term <$> terms_df dl.

Definition get_all_terms (dl : DataLoader) : list str := terms_list dl.

Definition get_term_by_index (dl : DataLoader) (index : Z) : option str :=
  py_index (terms_list dl) index.

Module DataStats.
(** the result of [DataLoader.get_stats], without the file path *)
Record t : Type := mk { total_terms : nat; unique_labels : nat }.
End DataStats.

(** [nunique] counts the distinct values that are not missing *)
Definition get_stats (dl : DataLoader) : DataStats.t :=
  DataStats.mk (length (terms_list dl))
               (length (remove_dups (omap Row.label (terms_df dl)))).

(** ** [TermService.batch_standardize] *)

Section Batch.
Context {runtime : PyRuntime}.

Definition batch_standardize (ts : TermService) (queries : list str)
    (semantic_threshold : Q) : list MatchResult.t :=
  foldl (λ results query,
           results ++ [standardize ts (strip query) semantic_threshold])
        [] queries.
End Batch.

(** ** [VectorService.initialize]: building the index

    The collection of the vector store is the list of its entries, the
    identifier [term_j] being the number [j]; [get_collection] fails when
    there is none.  Loading the model and encoding a batch may raise. *)

Module IndexEntry.
Record t : Type := mk { id : nat; document : str }.
End IndexEntry.

Definition batch_size : nat := 100.

(** the arguments of the successive calls of [collection.add] *)
Definition index_batches (terms : list str) : list (list IndexEntry.t) :=
  (λ i, let batch := take batch_size (drop i terms) in
        zip_with IndexEntry.mk (seq i (length batch)) batch)
    <$> py_range_step (length terms) batch_size.

Record IndexState : Type := {
  index_initialized : bool;
  index_collection : option (list IndexEntry.t)
}.

(** the loop over the batches: [encodes batch] tells whether
    [model.encode] returns on the batch; the loop stops at the first batch
    on which it raises, the batches before it being added *)
Fixpoint add_batches (encodes : list str → bool)
    (batches : list (list IndexEntry.t)) (collection : list IndexEntry.t)
  : list IndexEntry.t * bool :=
  match batches with
  | [] => (collection, true)
  | batch :: rest =>
      if encodes (IndexEntry.document <$> batch)
      then add_batches encodes rest (collection ++ batch)
      else (collection, false)
  end.

Definition rebuild_index (encodes : list str → bool) (terms : list str)
  : IndexState * bool :=
  let built := add_batches encodes (index_batches terms) [] in
  ({| index_initialized := built.2; index_collection := Some built.1 |},
   built.2).

(** [initialize]: the new state, and whether the call returned ([true]) or
    raised ([false]); [model_loads] tells whether [SentenceTransformer]
    returns *)
Definition initialize (model_loads : bool) (encodes : list str → bool)
    (st : IndexState) (terms : list str) : IndexState * bool :=
  if index_initialized st then (st, true)
  else if negb model_loads then (st, false)
  else
    match index_collection st with
    | Some collection =>
        if (length collection =? length terms)%nat
        then ({| index_initialized := true;
                 index_collection := Some collection |}, true)
        else rebuild_index encodes terms
    | None => rebuild_index encodes terms
    end.

(** ** [HistoryService]

    The history file holds the list of the records that the service wrote,
    the newest first, or cannot be read ([None]: missing or not JSON);
    [writable] tells whether the file can be opened and written.  Both
    failures are caught and logged by the service. *)

Module HistoryRecord.
Record t : Type := mk {
  query : str;
  type : str;
  results_count : Z;
  timestamp : str
}.
End HistoryRecord.

Record HistoryService : Type := {
  history_file : option (list HistoryRecord.t);
  writable : bool;
  max_items : Z
}.

Definition load_history (hs : HistoryService) : list HistoryRecord.t :=
  default [] (history_file hs).

Definition save_history (hs : HistoryService)
    (history : list HistoryRecord.t) : HistoryService :=
  if writable hs
  then {| history_file := Some history;
          writable := writable hs;
          max_items := max_items hs |}
  else hs.

(** [add_record]; [now] is [datetime.now().isoformat()] *)
Definition add_record (hs : HistoryService) (query query_type : str)
    (results_count : Z) (now : str) : HistoryService :=
  let record := HistoryRecord.mk query query_type results_count now in
  let history := record :: load_history hs in
  let history :=
    if (max_items hs <? Z.of_nat (length history))%Z
    then py_prefix history (max_items hs)
    else history in
  save_history hs history.

Definition get_recent (hs : HistoryService) (limit : Z)
  : list HistoryRecord.t :=
  py_prefix (load_history hs) limit.

Definition get_by_type (hs : HistoryService) (query_type : str) (limit : Z)
  : list HistoryRecord.t :=
  py_prefix (filter (λ h, HistoryRecord.type h = query_type)
                    (load_history hs)) limit.

Definition clear_history (hs : HistoryService) : HistoryService :=
  save_history hs [].

Module HistoryStats.
Record t : Type := mk {
  total_records : nat;
  type_counts : gmap str nat;
  oldest_record : option str;
  newest_record : option str
}.
End HistoryStats.

Definition count_type (type_counts : gmap str nat) (record : HistoryRecord.t)
  : gmap str nat :=
  <[HistoryRecord.type record :=
      default 0 (type_counts !! HistoryRecord.type record) + 1]> type_counts.

Definition history_stats (hs : HistoryService) : HistoryStats.t :=
  let history := load_history hs in
  HistoryStats.mk (length history)
    (foldl count_type ∅ history)
    (HistoryRecord.timestamp <$> last history)
    (HistoryRecord.timestamp <$> head history).

(** ** The endpoints of [app.py]

    A handler returns its response and the history service as it leaves
    it; any exception becomes the response 500. *)

Inductive response (A : Type) : Type :=
  | Ok (body : A)
  | Http500.
Arguments Ok {A} body.
Arguments Http500 {A}.

(** [request.term[:100] + '...' if len(request.term) > 100 else
    request.term] *)
Definition history_query (term : str) : str :=
  if (100 <? length term)%nat then take 100 term ++ py "..." else term.

(** the decimal digits of a number, as [str(n)] writes them *)
Fixpoint digits (d : Decimal.uint) : str :=
  match d with
  | Decimal.Nil => []
  | Decimal.D0 d => 48%N :: digits d
  | Decimal.D1 d => 49%N :: digits d
  | Decimal.D2 d => 50%N :: digits d
  | Decimal.D3 d => 51%N :: digits d
  | Decimal.D4 d => 52%N :: digits d
  | Decimal.D5 d => 53%N :: digits d
  | Decimal.D6 d => 54%N :: digits d
  | Decimal.D7 d => 55%N :: digits d
  | Decimal.D8 d => 56%N :: digits d
  | Decimal.D9 d => 57%N :: digits d
  end.

Definition decimal (n : nat) : str := digits (Nat.to_uint n).

(** [f"批量处理 {n} 段文本"] *)
Definition batch_history_query (n : nat) : str :=
  [0x6279; 0x91cf; 0x5904; 0x7406; 32]%N ++ decimal n
    ++ [32; 0x6bb5; 0x6587; 0x672c]%N.

Section Endpoints.
Context {runtime : PyRuntime}.

(** [POST /api/search] *)
Definition api_search (vs : VectorService) (hs : HistoryService)
    (query : str) (top_k : Z) (now : str)
  : response (list SemResult.t) * HistoryService :=
  match search_similar vs query top_k with
  | Returns results =>
      (Ok results,
       add_record hs query (py "search") (Z.of_nat (length results)) now)
  | Raises _ => (Http500, hs)
  end.

(** [POST /api/standardize]; [threshold] is the integer of the request,
    between 0 and 100 *)
Definition api_standardize (ts : TermService) (hs : HistoryService)
    (term : str) (threshold : Z) (now : str)
  : response TextResult.t * HistoryService :=
  match identify_and_replace_terms ts term (inject_Z threshold / 100) 2 with
  | Returns result =>
      (Ok result,
       add_record hs (history_query term) (py "text_standardize")
         (Z.of_nat (length (TextResult.replacements result))) now)
  | Raises _ => (Http500, hs)
  end.

(** the loop of [POST /api/batch-standardize] over the texts *)
Fixpoint batch_texts (ts : TermService) (threshold : Z) (texts : list str)
    (results : list TextResult.t) : outcome (list TextResult.t) :=
  match texts with
  | [] => Returns results
  | text :: rest =>
      result ← identify_and_replace_terms ts text
                 (inject_Z threshold / 100) 2;
      batch_texts ts threshold rest (results ++ [result])
  end.

Definition replacement_total (results : list TextResult.t) : nat :=
  foldr Nat.add 0 ((λ r, length (TextResult.replacements r)) <$> results).

(** [POST /api/batch-standardize] *)
Definition api_batch_standardize (ts : TermService) (hs : HistoryService)
    (terms : list str) (threshold : Z) (now : str)
  : response (list TextResult.t) * HistoryService :=
  match batch_texts ts threshold terms [] with
  | Returns results =>
      (Ok results,
       add_record hs (batch_history_query (length terms))
         (py "batch_text_standardize")
         (Z.of_nat (replacement_total results)) now)
  | Raises _ => (Http500, hs)
  end.

(** [GET /api/history]: an absent or empty [query_type] means no filter *)
Definition api_get_history (hs : HistoryService) (limit : Z)
    (query_type : option str) : list HistoryRecord.t :=
  match query_type with
  | Some (c :: t) => get_by_type hs (c :: t) limit
  | Some [] | None => get_recent hs limit
  end.
End Endpoints.

(** ** Notions used by the further properties *)

Section MoreNotions.
Context {runtime : PyRuntime}.

(** the string does not start with white space *)
Definition not_space_head (s : str) : Prop :=
  match s with
  | c :: _ => is_space c = false
  | [] => True
  end.

(** the empty-query result of [standardize] *)
Definition empty_query_result : MatchResult.t :=
  MatchResult.mk [] None 0 NoMatch None MsgEmptyQuery [].

(** the terms as entries numbered from [start] on *)
Definition numbered (start : nat) (terms : list str) : list IndexEntry.t :=
  zip_with IndexEntry.mk (seq start (length terms)) terms.

(** the term service without its vector service *)
Definition without_service (ts : TermService) : TermService :=
  {| data_loader := data_loader ts; vector_service := None |}.
End MoreNotions.

(** ** Further worked inputs *)

(** the demo services before the vector service is initialised *)
Definition cold_ts : TermService :=
  {| data_loader := demo_dl;
     vector_service :=
       Some {| is_initialized := false; collection_query := demo_index |} |}.

(** a log of two records that keeps at most two *)
Definition demo_hs : HistoryService :=
  {| history_file :=
       Some [HistoryRecord.mk (py "roe") (py "search") 3 (py "t2");
             HistoryRecord.mk (py "api") (py "text_standardize") 0 (py "t1")];
     writable := true;
     max_items := 2 |}.

(** a store that holds a collection of another size than the dictionary *)
Definition stale_index : IndexState :=
  {| index_initialized := false;
     index_collection := Some [IndexEntry.mk 0 (py "old")] |}.

(** * Properties *)

(** ** The matcher: [standardize] *)

Section StandardizeFacts.
Context {runtime : PyRuntime}.

Lemma search_exact_hit (dl : DataLoader) (query : str) :
  (∃ row, row ∈ terms_df dl ∧ lower (Row.term row) = lower query) ↔
  ∃ hit hits, search_exact dl query = hit :: hits
              ∧ lower (ExactHit.term hit) = lower query
              ∧ ∃ row, row ∈ terms_df dl ∧ Row.term row = ExactHit.term hit.
Proof.
  unfold search_exact. split.
  - intros (row & Hin & Heq).
    assert (Hf : row ∈ filter (λ r, lower (Row.term r) = lower query)
                              (terms_df dl))
      by (apply list_elem_of_filter; done).
    destruct (filter _ (terms_df dl)) as [|r rs] eqn:E.
    + by apply elem_of_nil in Hf.
    + assert (Hr : r ∈ filter (λ r, lower (Row.term r) = lower query)
                              (terms_df dl))
        by (rewrite E; left).
      apply list_elem_of_filter in Hr as [Hr1 Hr2].
      eexists _, _. split; [reflexivity|]. simpl. eauto.
  - intros (hit & hits & E & Hl & row & Hin & Ht).
    exists row. split; [done|]. by rewrite Ht.
Qed.

Lemma search_similar_returns (vs : VectorService) (query : str) (top_k : Z)
    (r : SemResult.t) (rs : list SemResult.t) :
  search_similar vs query top_k = Returns (r :: rs) →
  is_initialized vs = true ∧ query ≠ [].
Proof.
  unfold search_similar. destruct (is_initialized vs); simpl; [|done].
  case_bool_decide; [done|]. auto.
Qed.

Lemma format_results_length (docs : list (str * Q))
    (rs : list SemResult.t) :
  format_results docs = Returns rs → length rs = length docs.
Proof.
  revert rs. induction docs as [|[doc d] docs IH]; intros rs; simpl.
  - by intros [= <-].
  - destruct (Qeq_bool _ _); [done|].
    destruct (format_results docs) as [l|e]; simpl; [|done].
    intros [= <-]. simpl. f_equal. by apply IH.
Qed.

Lemma format_results_terms (docs : list (str * Q))
    (rs : list SemResult.t) :
  format_results docs = Returns rs → SemResult.term <$> rs = fst <$> docs.
Proof.
  revert rs. induction docs as [|[doc d] docs IH]; intros rs; simpl.
  - by intros [= <-].
  - destruct (Qeq_bool _ _); [done|].
    destruct (format_results docs) as [l|e]; simpl; [|done].
    intros [= <-]. simpl. f_equal. by apply IH.
Qed.
End StandardizeFacts.


Section StandardizeClaims.
Context {runtime : PyRuntime}.

(** C1 (amended).  For every non-empty query that is case-insensitively
    equal to some canonical term, [standardize] returns the exact-match
    result: match type [exact], score 100, similarity 1.0, no candidates,
    the standard term being a canonical term equal to the query up to
    case.  This holds for every threshold and every vector service,
    absent, uninitialised or answering anything. *)
Theorem standardize_exact_precedence (ts : TermService) (query : str)
    (semantic_threshold : Q) :
  query ≠ [] →
  (∃ row, row ∈ terms_df (data_loader ts)
          ∧ lower (Row.term row) = lower query) →
  ∃ standard,
    standardize ts query semantic_threshold
    = MatchResult.mk query (Some standard) 100 Exact (Some 1%Q) MsgExact []
    ∧ lower standard = lower query
    ∧ ∃ row, row ∈ terms_df (data_loader ts) ∧ Row.term row = standard.
Proof.
  intros Hq Hrow.
  apply search_exact_hit in Hrow as (hit & hits & E & Hl & Hrow).
  exists (ExactHit.term hit). unfold standardize.
  rewrite bool_decide_eq_false_2 by done. rewrite E. done.
Qed.

(** C2.  A query without exact hit for which retrieval returns a
    non-empty list with best similarity [s]: the result is [semantic] with
    the best term as standard term exactly when [s >= t], and
    [semantic_low] without standard term otherwise; in both cases the
    score is [round(s*100, 2)] and the candidates are the retrieved
    results, one entry each, in retrieval order, at most 5 of them when
    the index honours [n_results]. *)
Theorem standardize_threshold_boundary (ts : TermService)
    (vs : VectorService) (query : str) (t : Q)
    (best : SemResult.t) (rest : list SemResult.t) :
  vector_service ts = Some vs →
  search_exact (data_loader ts) query = [] →
  search_similar vs query 5 = Returns (best :: rest) →
  (∀ docs, collection_query vs query 5 = Returns docs → length docs ≤ 5) →
  (if Qle_bool t (SemResult.similarity best)
   then MatchResult.match_type (standardize ts query t) = Semantic
        ∧ MatchResult.standard_term (standardize ts query t)
          = Some (SemResult.term best)
   else MatchResult.match_type (standardize ts query t) = SemanticLow
        ∧ MatchResult.standard_term (standardize ts query t) = None)
  ∧ (MatchResult.match_type (standardize ts query t) = Semantic
     ↔ (t <= SemResult.similarity best)%Q)
  ∧ MatchResult.score (standardize ts query t)
    = py_round (SemResult.similarity best * 100) 2
  ∧ MatchResult.candidates (standardize ts query t)
    = make_candidate <$> best :: rest
  ∧ length (MatchResult.candidates (standardize ts query t)) ≤ 5
  ∧ Candidate.term <$> MatchResult.candidates (standardize ts query t)
    = SemResult.term <$> best :: rest
  ∧ Candidate.similarity <$> MatchResult.candidates (standardize ts query t)
    = SemResult.similarity <$> best :: rest.
Proof.
  intros Hvs Hex Hsem Hcap.
  destruct (search_similar_returns _ _ _ _ _ Hsem) as [Hinit Hq].
  assert (Hlen : length (best :: rest) ≤ 5).
  { revert Hsem. unfold search_similar. rewrite Hinit. simpl.
    rewrite bool_decide_eq_false_2 by done.
    destruct (collection_query vs query 5) as [docs|e] eqn:E; simpl; [|done].
    intros Hf. apply format_results_length in Hf.
    specialize (Hcap docs eq_refl). simpl in *. lia. }
  unfold standardize.
  rewrite bool_decide_eq_false_2 by done.
  rewrite Hex, Hvs, Hinit, Hsem.
  destruct (Qle_bool t (SemResult.similarity best)) eqn:Ht; simpl.
  - apply Qle_bool_iff in Ht.
    repeat split; try done.
    + by rewrite length_fmap.
    + by rewrite <- list_fmap_compose.
    + by rewrite <- list_fmap_compose.
  - assert (Hn : ¬ (t <= SemResult.similarity best)%Q).
    { intros Hle. apply Qle_bool_iff in Hle. congruence. }
    repeat split; try done.
    + by rewrite length_fmap.
    + by rewrite <- list_fmap_compose.
    + by rewrite <- list_fmap_compose.
Qed.
End StandardizeClaims.

Section StandardizeExamples.
#[local] Existing Instance ascii_runtime.

Lemma standardize_exact_precedence_witness :
  ∃ standard,
    standardize demo_ts (py "roe") (65 # 100)
    = MatchResult.mk (py "roe") (Some standard) 100 Exact (Some 1%Q)
                     MsgExact []
    ∧ lower standard = lower (py "roe")
    ∧ ∃ row, row ∈ terms_df (data_loader demo_ts) ∧ Row.term row = standard.
Proof.
  apply (standardize_exact_precedence demo_ts (py "roe") (65 # 100)).
  - vm_compute. discriminate.
  - exists (Row.mk (py "ROE") (Some (py "ratio"))). split.
    + right. left.
    + reflexivity.
Defined.

(** C1 as first stated fails on the empty query: a term of the source
    file made of one space is stripped to the empty canonical term, the
    empty query equals it, and [standardize] answers [none]. *)
Lemma standardize_exact_precedence_counterexample :
  (∃ row, row ∈ terms_df (load_data [(Some (py " "), None)])
          ∧ lower (Row.term row) = lower [])
  ∧ MatchResult.match_type
      (standardize {| data_loader := load_data [(Some (py " "), None)];
                      vector_service := None |} [] (65 # 100)) = NoMatch
  ∧ MatchResult.similarity
      (standardize {| data_loader := load_data [(Some (py " "), None)];
                      vector_service := None |} [] (65 # 100)) = None.
Proof.
  split; [|split; reflexivity].
  exists (Row.mk [] None). split; [|reflexivity].
  vm_compute. left.
Qed.
End StandardizeExamples.

(** ** Rounding *)

Section Rounding.
Local Open Scope Q_scope.



Lemma round_half_even_bounds (a b : Z) (x : Q) :
  inject_Z a <= x → x <= inject_Z b →
  (a <= round_half_even x <= b)%Z.
Proof.
  intros Ha Hb.
  assert (Hfa : (a <= Qfloor x)%Z).
  { rewrite <- (Qfloor_Z a). by apply Qfloor_resp_le. }
  assert (Hfb : (Qfloor x <= b)%Z).
  { rewrite <- (Qfloor_Z b). by apply Qfloor_resp_le. }
  unfold round_half_even.
  destruct (Qcompare (x - inject_Z (Qfloor x)) (1 # 2)) eqn:C.
  - destruct (Z.even (Qfloor x)); [lia|].
    assert (C' : x - inject_Z (Qfloor x) == 1 # 2) by (by apply Qeq_alt).
    destruct (Z.eq_dec (Qfloor x) b) as [E|Hne]; [|lia].
    exfalso. rewrite E in C'. lra.
  - lia.
  - apply Qgt_alt in C.
    destruct (Z.eq_dec (Qfloor x) b) as [E|Hne]; [|lia].
    exfalso. rewrite E in C. lra.
Qed.

Lemma py_round_eq (x : Q) (ndigits : nat) :
  py_round x ndigits
  == Qmake (round_half_even (x * inject_Z (10 ^ Z.of_nat ndigits)))
           (Z.to_pos (10 ^ Z.of_nat ndigits)).
Proof. unfold py_round. apply Qred_correct. Qed.


End Rounding.

Section RetrievalFacts.
Local Open Scope Q_scope.


End RetrievalFacts.

Section MatcherClaims.
Context {runtime : PyRuntime}.


Lemma identification_pass_acc (dl : DataLoader) (vs : VectorService)
    (th : Q) (terms : list str) (acc : list IdentifiedTerm.t * list call) :
  foldl (λ acc term,
           (acc.1 ++ (identify_one dl vs th term).1,
            acc.2 ++ (identify_one dl vs th term).2)) acc terms
  = (acc.1 ++ concat ((λ term, (identify_one dl vs th term).1) <$> terms),
     acc.2 ++ concat ((λ term, (identify_one dl vs th term).2) <$> terms)).
Proof.
  revert acc. induction terms as [|term terms IH]; intros [ids calls]; simpl.
  - by rewrite !app_nil_r.
  - rewrite IH. simpl. by rewrite !app_assoc.
Qed.

(** the pass appends, candidate after candidate, what [identify_one]
    yields *)
Lemma identification_pass_flat (dl : DataLoader) (vs : VectorService)
    (th : Q) (terms : list str) :
  identification_pass dl vs th terms
  = (concat ((λ term, (identify_one dl vs th term).1) <$> terms),
     concat ((λ term, (identify_one dl vs th term).2) <$> terms)).
Proof. unfold identification_pass. by rewrite identification_pass_acc. Qed.

(** C6.  An exception of the vector service never leaves the call that
    met it: in [standardize] the query gets the [none] result, and in the
    identification pass the candidate is skipped, the candidates before
    and after it being identified as if it were not there. *)
Theorem retrieval_failure_contained (ts : TermService) (vs : VectorService)
    (e : exn) :
  vector_service ts = Some vs →
  (∀ query t,
     query ≠ [] →
     search_exact (data_loader ts) query = [] →
     search_similar vs query 5 = Raises e →
     standardize ts query t = not_found query t
     ∧ MatchResult.match_type (standardize ts query t) = NoMatch)
  ∧ (∀ th pre term post,
       search_exact (data_loader ts) term = [] →
       search_similar vs term 1 = Raises e →
       (identify_one (data_loader ts) vs th term).1 = []
       ∧ (identification_pass (data_loader ts) vs th
            (pre ++ term :: post)).1
         = (identification_pass (data_loader ts) vs th pre).1
           ++ (identification_pass (data_loader ts) vs th post).1).
Proof.
  intros Hvs. split.
  - intros query t Hq Hex Hraise. unfold standardize.
    rewrite bool_decide_eq_false_2 by done.
    rewrite Hex, Hvs, Hraise. by destruct (is_initialized vs).
  - intros th pre term post Hex Hraise.
    assert (Hone : (identify_one (data_loader ts) vs th term).1 = []).
    { unfold identify_one. by rewrite Hex, Hraise. }
    split; [done|].
    rewrite !identification_pass_flat. simpl.
    rewrite fmap_app, concat_app. simpl. by rewrite Hone.
Qed.


(** the loop stops as soon as the list has [limit] entries, which it
    checks only after appending one: the list kept is the first
    [max 1 limit] of the results that pass the two tests *)
Lemma similar_loop_spec (term : str) (limit : Z) (threshold : Q)
    (results : list SemResult.t) (acc : list SimilarTerm.t) :
  length acc < Z.to_nat (Z.max 1 limit) →
  similar_loop term limit threshold results acc
  = acc ++ take (Z.to_nat (Z.max 1 limit) - length acc)
                (similar_entry
                   <$> filter (similar_enough term threshold) results).
Proof.
  revert acc. induction results as [|r results IH]; intros acc Hacc; simpl.
  - by rewrite take_nil, app_nil_r.
  - rewrite filter_cons.
    destruct (decide (similar_enough term threshold r)) as [[Hne Hle]|Hno].
    + rewrite bool_decide_eq_true_2 by done.
      apply Qle_bool_iff in Hle. rewrite Hle. simpl.
      rewrite length_app. simpl.
      destruct (Z.leb_spec limit (Z.of_nat (length acc + 1))) as [Hstop|Hgo].
      * replace (Z.to_nat (Z.max 1 limit) - length acc) with 1 by lia.
        simpl. by rewrite take_0.
      * rewrite IH by (rewrite length_app; simpl; lia).
        rewrite length_app. simpl.
        replace (Z.to_nat (Z.max 1 limit) - length acc)
          with (S (Z.to_nat (Z.max 1 limit) - (length acc + 1))) by lia.
        simpl. by rewrite <- app_assoc.
    + assert (E : bool_decide (lower (SemResult.term r) ≠ lower term)
                  && Qle_bool threshold (SemResult.similarity r) = false).
      { apply not_true_is_false. intros Ht.
        apply andb_true_iff in Ht as [H1 H2].
        apply bool_decide_eq_true_1 in H1. apply Qle_bool_iff in H2.
        by apply Hno. }
      rewrite E. by apply IH.
Qed.

(** C9, the result for the empty text: a no-op result returned without
    exception, the texts being the input and the two lists empty, but
    without the key ['total_replacements'].  The same holds when the
    vector service is absent or uninitialised. *)
Theorem identify_and_replace_terms_empty_text (ts : TermService)
    (similarity_threshold : Q) (min_word_length : Z) :
  identify_and_replace_terms ts [] similarity_threshold min_word_length
  = Returns (TextResult.mk [] [] [] [] None MsgNoText).
Proof. reflexivity. Qed.
End MatcherClaims.

(** ** The regular-expression engine *)


Section RegexFacts.
Context {runtime : PyRuntime}.


Lemma span_take (p : N → bool) (cap : option nat) (s : str) (j : nat) :
  j ≤ span p cap s →
  Forall (λ c, p c = true) (take j s)
  ∧ length (take j s) = j
  ∧ ∀ h, cap = Some h → j ≤ h.
Proof.
  revert cap j. induction s as [|c s IH]; intros cap j Hj.
  - assert (j = 0) as -> by (destruct cap as [[|?]|]; simpl in Hj; lia).
    repeat split; [constructor|]. intros; lia.
  - destruct j as [|j].
    { repeat split; [constructor|]. intros; lia. }
    assert (Hc : p c = true ∧ j ≤ span p (pred <$> cap) s
                 ∧ ∀ h, cap = Some h → 0 < h).
    { destruct cap as [[|h]|]; simpl in *; try lia;
        destruct (p c); try lia; repeat split; try lia;
        try (intros ? ?; simplify_eq; lia). }
    destruct Hc as (Hp & Hs & Hcap).
    destruct (IH _ _ Hs) as (Hall & Hlen & Hh).
    simpl. repeat split.
    + by constructor.
    + by rewrite Hlen.
    + intros h ->. specialize (Hh (pred h) eq_refl).
      specialize (Hcap h eq_refl). lia.
Qed.

Lemma try_down_Some (k lo : nat) (f : nat → option nat) (r : nat) :
  lo ≤ k → try_down k lo f = Some r → ∃ j, lo ≤ j ≤ k ∧ f j = Some r.
Proof.
  induction k as [|k IH]; simpl; intros Hlo.
  - destruct (f 0) eqn:E; [|done]. intros [= <-]. exists 0. split; [lia|done].
  - destruct (f (S k)) eqn:E.
    + intros [= <-]. exists (S k). split; [lia|done].
    + destruct (Nat.leb_spec lo k); [|done].
      intros Ht. destruct (IH ltac:(lia) Ht) as (j & Hj & Hf).
      exists j. split; [lia|done].
Qed.

(** the matcher only reports matches, and within the text *)
Lemma match_here_sound (ic : bool) (re : regex) (prev : option N)
    (s : str) (n : nat) :
  match_here ic re prev s = Some n →
  Matches ic re prev s (take n s) ∧ n ≤ length s.
Proof.
  revert prev s n. induction re as [|a re IH]; intros prev s n; simpl.
  - intros [= <-]. split; [constructor|lia].
  - destruct a as [|p|p|p lo hi].
    + destruct (at_boundary prev s) eqn:B; [|done].
      intros Hm. destruct (IH _ _ _ Hm). split; [by constructor|done].
    + destruct s as [|c s]; [done|].
      destruct (lit_match ic p c) eqn:L; [|done].
      destruct (match_here ic re (Some c) s) as [m|] eqn:E; [|done].
      intros [= <-]. destruct (IH _ _ _ E).
      split; [by constructor|simpl; lia].
    + destruct s as [|c s]; [done|].
      destruct (p c) eqn:L; [|done].
      destruct (match_here ic re (Some c) s) as [m|] eqn:E; [|done].
      intros [= <-]. destruct (IH _ _ _ E).
      split; [by constructor|simpl; lia].
    + destruct (Nat.ltb_spec (span p hi s) lo) as [|Hlo]; [done|].
      intros Ht. apply try_down_Some in Ht as (j & Hj & Hf); [|done].
      destruct (match_here ic re (prev_after prev (take j s)) (drop j s))
        as [m|] eqn:E; [|done].
      injection Hf as <-.
      destruct (IH _ _ _ E) as [HM Hlen].
      destruct (span_take p hi s j ltac:(lia)) as (Hall & Hl & Hh).
      rewrite length_drop in Hlen.
      split.
      * pose proof (Matches_rep ic p lo hi re prev (take j s) (drop j s)
                      (take m (drop j s)) Hall ltac:(lia)) as HR.
        rewrite take_drop, take_take_drop in HR. apply HR; [|done].
        intros h Hh'. rewrite Hl. by apply Hh.
      * assert (j ≤ length s) by (rewrite <- Hl, length_take; lia). lia.
Qed.

(** the pieces of a scan are the text *)
Lemma scan_cover (fuel : nat) (ic : bool) (re : regex) (prev : option N)
    (s : str) :
  length s < fuel →
  concat (piece_text <$> scan fuel ic re prev s) = s.
Proof.
  revert prev s. induction fuel as [|fuel IH]; intros prev s Hf; [lia|].
  simpl.
  assert (Hadv : concat (piece_text <$>
                   match s with
                   | c :: s' => Skip c :: scan fuel ic re (Some c) s'
                   | [] => []
                   end) = s).
  { destruct s as [|c s]; [done|]. simpl. f_equal. apply IH.
    simpl in Hf. lia. }
  destruct (match_here ic re prev s) as [[|n]|] eqn:E; [done| |done].
  apply match_here_sound in E as [_ Hn].
  rewrite fmap_cons. simpl concat.
  rewrite IH by (rewrite length_drop; lia).
  cbn [piece_text]. apply take_drop.
Qed.

Lemma finditer_cover (ic : bool) (re : regex) (s : str) :
  concat (piece_text <$> finditer ic re s) = s.
Proof. apply scan_cover. lia. Qed.

(** every hit of a scan is a match of the pattern somewhere in the text *)
Lemma scan_hits (fuel : nat) (ic : bool) (re : regex) (prev : option N)
    (s w : str) :
  Hit w ∈ scan fuel ic re prev s →
  ∃ prev' s', match_here ic re prev' s' = Some (length w)
              ∧ Matches ic re prev' s' w.
Proof.
  revert prev s. induction fuel as [|fuel IH]; intros prev s; simpl.
  - by intros ?%elem_of_nil.
  - assert (Hadv : Hit w ∈ match s with
                           | c :: s' => Skip c :: scan fuel ic re (Some c) s'
                           | [] => []
                           end →
            ∃ prev' s', match_here ic re prev' s' = Some (length w)
                        ∧ Matches ic re prev' s' w).
    { destruct s as [|c s]; [by intros ?%elem_of_nil|].
      intros [?|?]%elem_of_cons; [done|]. by eapply IH. }
    destruct (match_here ic re prev s) as [[|n]|] eqn:E; [| |done].
    + intros [[= ->]|?]%elem_of_cons; [|by apply Hadv].
      exists prev, s. split; [done|].
      apply match_here_sound in E as [E _]. by rewrite take_0 in E.
    + intros [[= ->]|?]%elem_of_cons; [|by eapply IH].
      exists prev, s. pose proof E as E'.
      apply match_here_sound in E' as [HM Hn].
      rewrite length_take, Nat.min_l by done. done.
Qed.

Lemma findall_hits (ic : bool) (re : regex) (s w : str) :
  w ∈ findall ic re s →
  ∃ prev' s', match_here ic re prev' s' = Some (length w)
              ∧ Matches ic re prev' s' w.
Proof.
  unfold findall. intros (p & Hp & Hw)%list_elem_of_omap.
  destruct p as [c|w']; [done|]. injection Hw as ->.
  by eapply scan_hits.
Qed.
End RegexFacts.

(** ** The extractor *)


Section ExtractorFacts.
Context {runtime : PyRuntime}.

Lemma Matches_token_inv (ic : bool) (re : regex) (prev : option N)
    (s w : str) :
  Matches ic (token ++ re) prev s w →
  ∃ t prev' s' w', w = t ++ w' ∧ is_token t ∧ Matches ic re prev' s' w'.
Proof.
  intros HM. simpl in HM.
  inversion HM as [| | |p re1 prev1 c s1 w1 Hc HM1|]; subst.
  inversion HM1 as [| | | |p lo hi re2 prev2 u s2 w2 Hu Hlo Hhi HM2]; subst.
  exists (c :: u), (prev_after (Some c) u), s2, w2.
  split; [done|]. split; [|done]. by exists c, u.
Qed.

Lemma Matches_spaces_inv (ic : bool) (re : regex) (prev : option N)
    (s w : str) :
  Matches ic (Rep is_space 1 None :: re) prev s w →
  ∃ u prev' s' w', w = u ++ w' ∧ is_spaces u ∧ Matches ic re prev' s' w'.
Proof.
  intros HM.
  inversion HM as [| | | |p lo hi re2 prev2 u s2 w2 Hu Hlo Hhi HM2]; subst.
  exists u, (prev_after prev u), s2, w2. split; [done|]. split; [|done].
  split; [|done]. intros ->. simpl in Hlo. lia.
Qed.

Lemma Matches_bound_inv (ic : bool) (re : regex) (prev : option N)
    (s w : str) :
  Matches ic (Bound :: re) prev s w →
  at_boundary prev s = true ∧ Matches ic re prev s w.
Proof. intros HM. by inversion HM; subst. Qed.

Lemma Matches_end_inv (ic : bool) (prev : option N) (s w : str) :
  Matches ic [Bound] prev s w → w = [].
Proof.
  intros [_ HM]%Matches_bound_inv. by inversion HM.
Qed.

Lemma single_word_shape (text w : str) :
  w ∈ findall false single_word_re text → is_token w.
Proof.
  intros (prev & s & _ & HM)%findall_hits.
  apply Matches_bound_inv in HM as [_ HM].
  apply Matches_token_inv in HM as (t & ? & ? & w' & -> & Ht & HM).
  apply Matches_end_inv in HM as ->. by rewrite app_nil_r.
Qed.

Lemma bigram_shape (text w : str) :
  w ∈ findall false bigram_re text → is_bigram w.
Proof.
  intros (prev & s & _ & HM)%findall_hits.
  apply Matches_bound_inv in HM as [_ HM].
  apply Matches_token_inv in HM as (t1 & ? & ? & w1 & -> & Ht1 & HM).
  apply Matches_spaces_inv in HM as (sp & ? & ? & w2 & -> & Hsp & HM).
  apply Matches_token_inv in HM as (t2 & ? & ? & w3 & -> & Ht2 & HM).
  apply Matches_end_inv in HM as ->. rewrite app_nil_r.
  by exists t1, sp, t2.
Qed.

Lemma trigram_shape (text w : str) :
  w ∈ findall false trigram_re text → is_trigram w.
Proof.
  intros (prev & s & _ & HM)%findall_hits.
  apply Matches_bound_inv in HM as [_ HM].
  apply Matches_token_inv in HM as (t1 & ? & ? & w1 & -> & Ht1 & HM).
  apply Matches_spaces_inv in HM as (sp1 & ? & ? & w2 & -> & Hsp1 & HM).
  apply Matches_token_inv in HM as (t2 & ? & ? & w3 & -> & Ht2 & HM).
  apply Matches_spaces_inv in HM as (sp2 & ? & ? & w4 & -> & Hsp2 & HM).
  apply Matches_token_inv in HM as (t3 & ? & ? & w5 & -> & Ht3 & HM).
  apply Matches_end_inv in HM as ->. rewrite app_nil_r.
  by exists t1, sp1, t2, sp2, t3.
Qed.

Lemma chinese_shape (text w : str) :
  w ∈ findall false chinese_re text → is_cjk_run w.
Proof.
  intros (prev & s & _ & HM)%findall_hits.
  inversion HM as [| | | |p lo hi re2 prev2 u s2 w2 Hu Hlo Hhi HM2]; subst.
  inversion HM2; subst. rewrite app_nil_r.
  split; [|done]. split; [done|]. by apply Hhi.
Qed.

Lemma is_token_nonempty (w : str) : is_token w → w ≠ [].
Proof. by intros (c & u & -> & _). Qed.

(** *** The two loops against [first_by_key] *)

Lemma seen_union_known (seen : gset str) (k : str) (X : gset str) :
  k ∈ seen → seen ∪ X = seen ∪ ({[k]} ∪ X).
Proof.
  intros Hk. apply set_eq. intros y.
  rewrite !elem_of_union, elem_of_singleton. intuition (subst; auto).
Qed.

Lemma seen_union_fresh (seen : gset str) (k : str) (X : gset str) :
  {[k]} ∪ seen ∪ X = seen ∪ ({[k]} ∪ X).
Proof.
  apply set_eq. intros y. rewrite !elem_of_union, elem_of_singleton. tauto.
Qed.

Lemma add_unseen_foldl (l : list str) (st : extraction) :
  foldl add_unseen st l
  = (st.1 ++ filter (λ w, lower w ∉ st.2) (first_by_key lower l),
     st.2 ∪ list_to_set (lower <$> l)).
Proof.
  revert st. induction l as [|x l IH]; intros [pt seen]; simpl.
  - rewrite app_nil_r. f_equal. by rewrite (right_id_L ∅ (∪)).
  - rewrite IH. unfold add_unseen. simpl.
    rewrite filter_cons. rewrite list_filter_filter.
    case_bool_decide as Hx; simpl.
    + rewrite decide_False by tauto. f_equal; [|by apply seen_union_known].
      f_equal. apply list_filter_iff. intros y. split; [|tauto].
      intros Hy. split; [done|]. intros E. apply Hy. by rewrite E.
    + rewrite decide_True by done.
      rewrite <- app_assoc. simpl. f_equal; [|apply seen_union_fresh].
      do 2 f_equal. apply list_filter_iff. intros y.
      rewrite elem_of_union, elem_of_singleton. tauto.
Qed.

Lemma add_word_foldl (min_word_length : Z) (l : list str) (st : extraction) :
  foldl (add_word min_word_length) st l
  = foldl add_unseen st
      (filter (λ w, (min_word_length ≤ Z.of_nat (length w))%Z) l).
Proof.
  revert st. induction l as [|x l IH]; intros st; [done|].
  simpl. rewrite filter_cons. rewrite IH.
  unfold add_word.
  destruct (Z.leb_spec min_word_length (Z.of_nat (length x))) as [Hl|Hl].
  - rewrite decide_True by done. simpl.
    assert (E : add_unseen st x
                = if negb (bool_decide (lower x ∈ st.2))
                  then (st.1 ++ [x], {[lower x]} ∪ st.2) else st)
      by (unfold add_unseen; by destruct (bool_decide _)).
    by rewrite E.
  - rewrite decide_False by lia. done.
Qed.

Lemma filter_all {A : Type} (P : A → Prop) `{∀ x, Decision (P x)}
    (l : list A) :
  (∀ x, P x) → filter P l = l.
Proof.
  intros HP. induction l as [|x l IH]; [done|].
  rewrite filter_cons_True by done. by rewrite IH.
Qed.

Lemma extract_terms_first_by_key (text : str) (min_word_length : Z) :
  extract_terms text min_word_length = spec_candidates text min_word_length.
Proof.
  unfold extract_terms, spec_candidates.
  rewrite add_word_foldl, <- !foldl_app, add_unseen_foldl. simpl.
  rewrite <- ?app_assoc.
  apply filter_all. intros w. apply not_elem_of_empty.
Qed.

Lemma first_by_key_elem {A K : Type} `{EqDecision K} (key : A → K)
    (l : list A) (x : A) :
  x ∈ first_by_key key l → x ∈ l.
Proof.
  induction l as [|y l IH]; simpl; [done|].
  intros [->|Hx]%elem_of_cons; [left|].
  apply list_elem_of_filter in Hx as [_ Hx]. right. by apply IH.
Qed.

Lemma first_by_key_NoDup {A K : Type} `{EqDecision K} (key : A → K)
    (l : list A) :
  NoDup (key <$> first_by_key key l).
Proof.
  induction l as [|y l IH]; simpl; [constructor|].
  constructor.
  - intros (z & Hk & Hz)%list_elem_of_fmap.
    apply list_elem_of_filter in Hz as [Hne _]. by apply Hne.
  - revert IH. generalize (first_by_key key l). intros l' Hl'.
    induction l' as [|z l' IH']; [constructor|].
    rewrite filter_cons. apply NoDup_cons in Hl' as [Hz Hl'].
    destruct (decide (key z ≠ key y)); [|by apply IH'].
    simpl. constructor; [|by apply IH'].
    intros (z' & Hk & Hz')%list_elem_of_fmap.
    apply list_elem_of_filter in Hz' as [_ Hz'].
    apply Hz. rewrite Hk. by apply list_elem_of_fmap_2.
Qed.

End ExtractorFacts.

Section ExtractorClaims.
Context {runtime : PyRuntime}.

Lemma extract_terms_shape (text : str) (min_word_length : Z) (w : str) :
  w ∈ extract_terms text min_word_length →
  (is_token w ∧ (min_word_length ≤ Z.of_nat (length w))%Z)
  ∨ is_bigram w ∨ is_trigram w ∨ is_cjk_run w.
Proof.
  rewrite extract_terms_first_by_key. unfold spec_candidates.
  intros Hw%first_by_key_elem.
  rewrite !elem_of_app in Hw.
  destruct Hw as [Hw|[Hw|[Hw|Hw]]].
  - apply list_elem_of_filter in Hw as [Hlen Hw].
    left. split; [by eapply single_word_shape|done].
  - right. left. by eapply bigram_shape.
  - right. right. left. by eapply trigram_shape.
  - right. right. right. by eapply chinese_shape.
Qed.

Lemma extract_terms_nonempty (text : str) (min_word_length : Z) (w : str) :
  w ∈ extract_terms text min_word_length → w ≠ [].
Proof.
  intros [[Ht _]|[Hb|[Ht|Hc]]]%extract_terms_shape.
  - by apply is_token_nonempty.
  - destruct Hb as (t1 & sp & t2 & -> & (c & u & -> & _) & _). done.
  - destruct Ht as (t1 & ? & ? & ? & ? & -> & (c & u & -> & _) & _). done.
  - destruct Hc as [[Hl _] _]. intros ->. simpl in Hl. lia.
Qed.

End ExtractorClaims.

(** ** The identification pass *)

Section IdentificationClaims.
Context {runtime : PyRuntime}.

(** C5 (amended).  The pass handles the candidates in extraction order,
    each by itself.  A candidate with an exact hit never reaches the
    vector service: it yields an [exact] term of similarity 1.0 when the
    first hit differs from it as a string, and nothing when the two are
    the same.  A candidate without exact hit is submitted once to the
    vector service with [top_k = 1], and yields a [semantic] term exactly
    when a result comes back whose similarity is at least the threshold
    and whose term differs from the candidate up to case. *)
Theorem identification_step (dl : DataLoader) (vs : VectorService)
    (th : Q) :
  (∀ terms,
     identification_pass dl vs th terms
     = (concat ((λ term, (identify_one dl vs th term).1) <$> terms),
        concat ((λ term, (identify_one dl vs th term).2) <$> terms)))
  ∧ ∀ term,
      match search_exact dl term with
      | hit :: _ =>
          (identify_one dl vs th term).2 = []
          ∧ (identify_one dl vs th term).1
            = if decide (term = ExactHit.term hit) then []
              else [IdentifiedTerm.mk term (ExactHit.term hit) 1 Exact]
      | [] =>
          (identify_one dl vs th term).2 = [SearchSimilar term 1]
          ∧ length (identify_one dl vs th term).1 ≤ 1
          ∧ ∀ item,
              item ∈ (identify_one dl vs th term).1 ↔
              ∃ best rest,
                search_similar vs term 1 = Returns (best :: rest)
                ∧ (th <= SemResult.similarity best)%Q
                ∧ lower term ≠ lower (SemResult.term best)
                ∧ item = IdentifiedTerm.mk term (SemResult.term best)
                           (SemResult.similarity best) Semantic
      end.
Proof.
  split; [apply identification_pass_flat|].
  intros term. unfold identify_one.
  destruct (search_exact dl term) as [|hit hits]; simpl.
  - split; [done|].
    destruct (search_similar vs term 1) as [[|best rest]|e]; simpl.
    + split; [lia|]. intros item. split; [by intros ?%elem_of_nil|].
      by intros (? & ? & ? & _).
    + destruct (Qle_bool th (SemResult.similarity best)) eqn:Hth.
      * apply Qle_bool_iff in Hth.
        case_bool_decide as Hne; simpl.
        -- split; [lia|]. intros item. split.
           ++ intros ->%list_elem_of_singleton. by exists best, rest.
           ++ intros (b & r & [= <- <-] & _ & _ & ->). left.
        -- split; [lia|]. intros item.
           split; [by intros ?%elem_of_nil|].
           intros (b & r & [= <- <-] & _ & Hd & _). done.
      * simpl. split; [lia|]. intros item.
        split; [by intros ?%elem_of_nil|].
        intros (b & r & [= <- <-] & Hle & _).
        apply Qle_bool_iff in Hle. congruence.
    + split; [lia|]. intros item. split; [by intros ?%elem_of_nil|].
      by intros (? & ? & ? & _).
  - split; [done|]. case_bool_decide; case_decide; done.
Qed.

Lemma elem_of_concat {A : Type} (x : A) (ls : list (list A)) :
  x ∈ concat ls ↔ ∃ l, l ∈ ls ∧ x ∈ l.
Proof.
  rewrite list_elem_of_In, in_concat.
  by setoid_rewrite list_elem_of_In.
Qed.

(** what the pass identifies comes from a candidate, and what it asks
    the vector service is a candidate without exact hit *)
Lemma identification_pass_elem (dl : DataLoader) (vs : VectorService)
    (th : Q) (terms : list str) (item : IdentifiedTerm.t) :
  item ∈ (identification_pass dl vs th terms).1 →
  IdentifiedTerm.original item ∈ terms
  ∧ item ∈ (identify_one dl vs th (IdentifiedTerm.original item)).1.
Proof.
  rewrite identification_pass_flat. simpl.
  intros (l & Hl & Hitem)%elem_of_concat.
  apply list_elem_of_fmap in Hl as (term & -> & Hterm).
  assert (E : IdentifiedTerm.original item = term).
  { revert Hitem. unfold identify_one.
    destruct (search_exact dl term) as [|hit hits]; simpl.
    - destruct (search_similar vs term 1) as [[|best rest]|e]; simpl;
        try by intros ?%elem_of_nil.
      destruct (Qle_bool _ _); [|by intros ?%elem_of_nil].
      case_bool_decide; [|by intros ?%elem_of_nil].
      by intros ->%list_elem_of_singleton.
    - case_bool_decide; [|by intros ?%elem_of_nil].
      by intros ->%list_elem_of_singleton. }
  by rewrite E.
Qed.

End IdentificationClaims.

(** ** Sorting by descending key *)

Section SortedDesc.
Context {A : Type} (key : A → nat).

Lemma insert_desc_perm (x : A) (l : list A) :
  insert_desc key x l ≡ₚ x :: l.
Proof.
  induction l as [|y l IH]; simpl; [done|].
  destruct (key x <? key y); [|done].
  rewrite IH. apply perm_swap.
Qed.

Lemma sorted_desc_perm (l : list A) : sorted_desc key l ≡ₚ l.
Proof.
  induction l as [|x l IH]; simpl; [done|].
  rewrite insert_desc_perm. by rewrite IH.
Qed.

Lemma insert_desc_sorted (x : A) (l : list A) :
  StronglySorted (key_ge key) l → StronglySorted (key_ge key) (insert_desc key x l).
Proof.
  induction 1 as [|y l Hl IH Hy]; simpl.
  - repeat constructor.
  - destruct (Nat.ltb_spec (key x) (key y)) as [Hlt|Hge].
    + constructor; [done|].
      rewrite insert_desc_perm. constructor; [|done].
      unfold key_ge. lia.
    + constructor; [by constructor|].
      constructor; [done|].
      eapply Forall_impl; [exact Hy|]. unfold key_ge. intros; simpl in *; lia.
Qed.

Lemma sorted_desc_sorted (l : list A) :
  StronglySorted (key_ge key) (sorted_desc key l).
Proof.
  induction l as [|x l IH]; simpl; [constructor|].
  by apply insert_desc_sorted.
Qed.


End SortedDesc.

(** ** Whole-word occurrences *)


Section WholeWordFacts.
Context {runtime : PyRuntime}.

Lemma prev_after_cons (prev : option N) (c : N) (w : str) :
  prev_after prev (c :: w) = prev_after (Some c) w.
Proof.
  unfold prev_after. destruct w as [|d w]; [done|].
  rewrite last_cons. by destruct (last (d :: w)).
Qed.

Lemma literals_complete (ic : bool) (o w : str) (re : regex)
    (prev : option N) (rest : str) (m : nat) :
  Forall2 (λ p c, lit_match ic p c = true) o w →
  match_here ic re (prev_after prev w) rest = Some m →
  match_here ic ((Lit <$> o) ++ re) prev (w ++ rest) = Some (length o + m).
Proof.
  intros Hw. revert prev. induction Hw as [|p c o w Hpc Hw IH]; intros prev.
  - done.
  - rewrite prev_after_cons. intros Hm.
    change (match_here ic ((Lit <$> p :: o) ++ re) prev ((c :: w) ++ rest))
      with (if lit_match ic p c
            then S <$> match_here ic ((Lit <$> o) ++ re) (Some c) (w ++ rest)
            else None).
    by rewrite Hpc, (IH _ Hm).
Qed.

Lemma literals_sound (ic : bool) (o : str) (re : regex) (prev : option N)
    (s : str) (n : nat) :
  match_here ic ((Lit <$> o) ++ re) prev s = Some n →
  ∃ w rest m,
    s = w ++ rest
    ∧ Forall2 (λ p c, lit_match ic p c = true) o w
    ∧ match_here ic re (prev_after prev w) rest = Some m
    ∧ n = length o + m.
Proof.
  revert prev s n. induction o as [|p o IH]; intros prev s n.
  - intros Hm. exists [], s, n. repeat split; [constructor|done].
  - change (match_here ic ((Lit <$> p :: o) ++ re) prev s)
      with (match s with
            | c :: s' =>
                if lit_match ic p c
                then S <$> match_here ic ((Lit <$> o) ++ re) (Some c) s'
                else None
            | [] => None
            end).
    destruct s as [|c s]; [done|].
    destruct (lit_match ic p c) eqn:L; [|done].
    destruct (match_here ic ((Lit <$> o) ++ re) (Some c) s) as [k|] eqn:E;
      [|done].
    intros [= <-]. destruct (IH _ _ _ E) as (w & rest & m & -> & Hw & Hm & ->).
    exists (c :: w), rest, m. rewrite prev_after_cons.
    repeat split; [by constructor|done].
Qed.

Lemma match_here_whole_word (original : str) (prev : option N) (s : str)
    (n : nat) :
  match_here true (whole_word_re original) prev s = Some n ↔
  n = length original ∧ occurs_at original prev s.
Proof.
  unfold whole_word_re. simpl. split.
  - destruct (at_boundary prev s) eqn:B; [|done].
    intros (w & rest & m & -> & Hw & Hm & ->)%literals_sound.
    simpl in Hm. destruct (at_boundary (prev_after prev w) rest) eqn:B2;
      [|done].
    injection Hm as <-. split; [lia|]. by exists w, rest.
  - intros [-> (w & rest & -> & Hw & B & B2)]. rewrite B.
    rewrite (literals_complete true original w [Bound] prev rest 0 Hw).
    + f_equal. lia.
    + simpl. by rewrite B2.
Qed.

Lemma ci_equal_length (original w : str) :
  ci_equal original w → length w = length original.
Proof. intros Hw. symmetry. by eapply Forall2_length. Qed.

(** the scan for [\b original \b] under [IGNORECASE] cuts the text at its
    whole-word occurrences *)
Lemma scan_occurrences (original : str) (fuel : nat) (prev : option N)
    (s : str) :
  original ≠ [] →
  length s < fuel →
  Occurrences original prev s
    (scan fuel true (whole_word_re original) prev s).
Proof.
  intros Ho. revert prev s.
  induction fuel as [|fuel IH]; intros prev s Hf; [lia|].
  cbn [scan].
  destruct (match_here true (whole_word_re original) prev s) as [n|] eqn:E.
  - apply match_here_whole_word in E as [-> Hocc].
    destruct original as [|p o]; [done|]. cbn [length].
    destruct Hocc as (w & rest & -> & Hww).
    pose proof (ci_equal_length _ _ (proj1 Hww)) as Hl. simpl in Hl.
    rewrite <- Hl, take_app_length, drop_app_length.
    constructor; [done|]. apply IH.
    rewrite length_app in Hf. lia.
  - destruct s as [|c s]; [constructor|].
    constructor.
    + intros Hocc.
      assert (E' : match_here true (whole_word_re original) prev (c :: s)
                   = Some (length original))
        by (by apply match_here_whole_word).
      congruence.
    + apply IH. simpl in Hf. lia.
Qed.

Lemma finditer_occurrences (original s : str) :
  original ≠ [] →
  Occurrences original None s (finditer true (whole_word_re original) s).
Proof. intros Ho. apply scan_occurrences; [done|lia]. Qed.
End WholeWordFacts.

(** ** The replacement pass *)

Section ReplacementFacts.
Context {runtime : PyRuntime}.

Lemma replace_one_cases (st : replacing) (item : IdentifiedTerm.t)
    (st' : replacing) :
  IdentifiedTerm.original item ≠ [] →
  replace_one st item = Returns st' →
  ∃ ps, Occurrences (IdentifiedTerm.original item) None st.1 ps
        ∧ ((omap the_hit ps = [] ∧ st' = st)
           ∨ (0 < length (omap the_hit ps)
              ∧ ∃ expand,
                  compile_template (IdentifiedTerm.standard item)
                  = Returns expand
                  ∧ st' = (concat (expand_piece expand <$> ps),
                           st.2 ++ [record_of item
                                      (length (omap the_hit ps))]))).
Proof.
  intros Ho. unfold replace_one, re_sub, findall.
  exists (finditer true (whole_word_re (IdentifiedTerm.original item)) st.1).
  split; [by apply finditer_occurrences|].
  destruct (Nat.ltb_spec 0 (length (omap the_hit
    (finditer true (whole_word_re (IdentifiedTerm.original item)) st.1))))
    as [Hpos|Hzero].
  - right. split; [done|].
    destruct (compile_template (IdentifiedTerm.standard item))
      as [expand|e]; simpl in *; [|done].
    exists expand. split; [done|]. by simplify_eq.
  - left. simplify_eq. split; [|done].
    apply length_zero_iff_nil. lia.
Qed.

Lemma replacement_pass_replaced (items : list IdentifiedTerm.t)
    (text : str) (records0 : list ReplacementRecord.t)
    (text' : str) (records : list ReplacementRecord.t) :
  (∀ item, item ∈ items → IdentifiedTerm.original item ≠ []) →
  replacement_pass items (text, records0) = Returns (text', records) →
  ∃ emitted, records = records0 ++ emitted
             ∧ Replaced text items text' emitted.
Proof.
  revert text records0.
  induction items as [|item items IH]; intros text records0 Ho; simpl.
  - intros [= -> ->]. exists []. split; [by rewrite app_nil_r|constructor].
  - destruct (replace_one (text, records0) item) as [st1|e] eqn:E;
      simpl; [|done].
    intros Hpass.
    apply replace_one_cases in E as (ps & Hocc & Hcase);
      [|apply Ho; left].
    simpl in Hocc.
    assert (Ho' : ∀ it, it ∈ items → IdentifiedTerm.original it ≠ [])
      by (intros it Hit; apply Ho; by right).
    destruct Hcase as [[Hnone ->]|(Hpos & expand & Hexp & ->)].
    + destruct (IH _ _ Ho' Hpass) as (emitted & -> & HR).
      exists emitted. split; [done|]. by eapply Replaced_none.
    + simpl in Hpass.
      destruct (IH _ _ Ho' Hpass) as (emitted & -> & HR).
      eexists. split; [by rewrite <- app_assoc|].
      by eapply Replaced_some.
Qed.


Lemma Replaced_counts (text : str) (items : list IdentifiedTerm.t)
    (text' : str) (records : list ReplacementRecord.t) :
  Replaced text items text' records →
  Forall (λ record, 0 < ReplacementRecord.count record) records.
Proof. induction 1; [constructor|done|by constructor]. Qed.

(** the records are records of terms of the list, in the order of the list *)
Lemma Replaced_sublist (text : str) (items : list IdentifiedTerm.t)
    (text' : str) (records : list ReplacementRecord.t) :
  Replaced text items text' records →
  ∃ kept, kept `sublist_of` items
          ∧ Forall2 (λ record item,
                       ∃ count, record = record_of item count)
                    records kept.
Proof.
  induction 1 as [|? ? ? ? ? ? ? ? ? (kept & Hs & Hf)
                  |? item ? ? ? ? ? ? ? ? ? (kept & Hs & Hf)].
  - exists []. split; [done|constructor].
  - exists kept. split; [by apply sublist_cons|done].
  - exists (item :: kept). split; [by apply sublist_skip|].
    constructor; [by eexists|done].
Qed.

End ReplacementFacts.

Section ReplacementClaims.
Context {runtime : PyRuntime}.

Lemma identified_original_nonempty (dl : DataLoader) (vs : VectorService)
    (th : Q) (text : str) (min_word_length : Z) (item : IdentifiedTerm.t) :
  item ∈ (identification_pass dl vs th
            (extract_terms text min_word_length)).1 →
  IdentifiedTerm.original item ≠ [].
Proof.
  intros [Hin _]%identification_pass_elem.
  by eapply extract_terms_nonempty.
Qed.


End ReplacementClaims.

(** ** Similar terms *)

Section SimilarTermsFacts.
Context {runtime : PyRuntime}.

(** [get_similar_terms] in full: nothing without a ready vector service
    or when the retrieval raises; otherwise the first [max 1 limit] of the
    [limit + 5] retrieved results that differ from the reference term up
    to case and reach the threshold, in retrieval order *)
Lemma get_similar_terms_spec (ts : TermService) (term : str) (limit : Z)
    (threshold : Q) :
  get_similar_terms ts term limit threshold
  = match ready_service ts with
    | Some vs =>
        match search_similar vs term (limit + 5) with
        | Returns results =>
            take (Z.to_nat (Z.max 1 limit))
                 (similar_entry
                    <$> filter (similar_enough term threshold) results)
        | Raises _ => []
        end
    | None => []
    end.
Proof.
  unfold get_similar_terms, ready_service.
  destruct (vector_service ts) as [vs|]; [|done].
  destruct (is_initialized vs); simpl; [|done].
  destruct (search_similar vs term (limit + 5)) as [results|e]; [|done].
  rewrite similar_loop_spec by (simpl; lia).
  simpl. by rewrite Nat.sub_0_r.
Qed.

(** X19.  No entry is the reference term up to case *)
Lemma get_similar_terms_excludes_self (ts : TermService) (term : str)
    (limit : Z) (threshold : Q) (entry : SimilarTerm.t) :
  entry ∈ get_similar_terms ts term limit threshold →
  lower (SimilarTerm.term entry) ≠ lower term.
Proof.
  rewrite get_similar_terms_spec.
  destruct (ready_service ts) as [vs|]; [|by intros ?%elem_of_nil].
  destruct (search_similar vs term (limit + 5)) as [results|e];
    [|by intros ?%elem_of_nil].
  intros Hin%subseteq_take.
  apply list_elem_of_fmap in Hin as (r & -> & Hr).
  apply list_elem_of_filter in Hr as [[Hne _] _]. done.
Qed.

(** X20.  At most [limit] entries, provided [limit] is at least 1 *)
Lemma get_similar_terms_length (ts : TermService) (term : str)
    (limit : Z) (threshold : Q) :
  (1 ≤ limit)%Z →
  (Z.of_nat (length (get_similar_terms ts term limit threshold)) ≤ limit)%Z.
Proof.
  intros Hl. rewrite get_similar_terms_spec.
  destruct (ready_service ts) as [vs|]; [|simpl; lia].
  destruct (search_similar vs term (limit + 5)) as [results|e];
    [|simpl; lia].
  rewrite length_take. lia.
Qed.
End SimilarTermsFacts.

(** ** Worked inputs *)

Section WorkedInputs.
#[local] Existing Instance ascii_runtime.

Lemma standardize_threshold_boundary_witness :
  vector_service demo_ts = Some demo_vs
  ∧ search_exact (data_loader demo_ts) (py "Credit Risk") = []
  ∧ (MatchResult.match_type
       (standardize demo_ts (py "Credit Risk") (65 # 100)) = Semantic
     ↔ (65 # 100 <= 4 # 5)%Q)
  ∧ MatchResult.score (standardize demo_ts (py "Credit Risk") (65 # 100))
    = py_round ((4 # 5) * 100) 2
  ∧ length (MatchResult.candidates
              (standardize demo_ts (py "Credit Risk") (65 # 100))) ≤ 5.
Proof.
  split; [reflexivity|]. split; [reflexivity|].
  destruct (standardize_threshold_boundary demo_ts demo_vs
              (py "Credit Risk") (65 # 100)
              (SemResult.mk (py "CreditRiskStd") (4 # 5) (1 # 4))
              [SemResult.mk (py "RiskStd") (1 # 2) 1])
    as (_ & Hiff & Hscore & _ & Hlen & _).
  - reflexivity.
  - reflexivity.
  - reflexivity.
  - intros docs Hdocs. vm_compute in Hdocs.
    injection Hdocs as <-. simpl. lia.
  - split; [exact Hiff|]. split; [exact Hscore|exact Hlen].
Defined.

Lemma retrieval_failure_contained_witness :
  vector_service demo_ts = Some demo_vs
  ∧ search_similar demo_vs (py "boom") 5 = Raises (BackendError 1)
  ∧ MatchResult.match_type
      (standardize demo_ts (py "boom") (65 # 100)) = NoMatch
  ∧ (identification_pass (data_loader demo_ts) demo_vs (6 # 10)
       ([py "Risk"] ++ py "boom" :: [py "Credit Risk"])).1
    = (identification_pass (data_loader demo_ts) demo_vs (6 # 10)
         [py "Risk"]).1
      ++ (identification_pass (data_loader demo_ts) demo_vs (6 # 10)
            [py "Credit Risk"]).1.
Proof.
  split; [reflexivity|]. split; [reflexivity|].
  destruct (retrieval_failure_contained demo_ts demo_vs (BackendError 1)
              eq_refl) as [Hstd Hpass].
  split.
  - apply (Hstd (py "boom") (65 # 100)).
    + vm_compute. discriminate.
    + reflexivity.
    + reflexivity.
  - apply (Hpass (6 # 10) [py "Risk"] (py "boom") [py "Credit Risk"]).
    + reflexivity.
    + reflexivity.
Defined.



(** C5 as first stated fails on a candidate that is itself a canonical
    term: "API" is in the dictionary, so the exact lookup hits without a
    difference; the vector service would return a term that passes both
    tests, but it is not asked and nothing is identified. *)
Lemma identification_step_counterexample :
  (∃ hit hits, search_exact demo_dl (py "API") = hit :: hits
               ∧ ExactHit.term hit = py "API")
  ∧ (∃ best, search_similar demo_vs (py "API") 1 = Returns [best]
             ∧ (6 # 10 <= SemResult.similarity best)%Q
             ∧ lower (py "API") ≠ lower (SemResult.term best))
  ∧ identify_one demo_dl demo_vs (6 # 10) (py "API") = ([], []).
Proof.
  split; [|split].
  - by eexists _, _.
  - eexists. split; [reflexivity|]. split; vm_compute; discriminate.
  - reflexivity.
Qed.

(** C7, the failing input: with [limit = 0] the loop appends the first
    result that passes and only then compares the length with the
    limit, so one entry is returned where at most none may be. *)
Theorem get_similar_terms_limit_zero :
  get_similar_terms demo_ts (py "Credit Risk") 0 (1 # 2)
  = [SimilarTerm.mk (py "CreditRiskStd") (4 # 5)]
  ∧ ¬ (Z.of_nat (length (get_similar_terms demo_ts (py "Credit Risk") 0
                           (1 # 2))) ≤ 0)%Z.
Proof. split; [reflexivity|]. vm_compute. intros Hle. by apply Hle. Qed.



(** the examples of the specification *)

Example length_priority_replacement :
  TextResult.processed_text
    <$> (match identify_and_replace_terms semantic_only_ts
                 (py "Credit Risk management") (6 # 10) 2 with
         | Returns r => Some r
         | Raises _ => None
         end)
  = Some (py "CreditRiskStd management").
Proof. reflexivity. Qed.

Example replacement_count_accuracy :
  (λ r, (TextResult.processed_text r,
         ReplacementRecord.count <$> TextResult.replacements r,
         TextResult.total_replacements r))
    <$> (match identify_and_replace_terms semantic_only_ts
                 (py "API api API") (6 # 10) 2 with
         | Returns r => Some r
         | Raises _ => None
         end)
  = Some (py ("Application Programming Interface "
              ++ "Application Programming Interface "
              ++ "Application Programming Interface"),
          [3], Some 3).
Proof. vm_compute. reflexivity. Qed.

Example roe_scenario :
  standardize roe_ts roe_query (65 # 100)
  = MatchResult.mk roe_query (Some (py "ROE")) 72 Semantic (Some (18 # 25))
      MsgSemantic [Candidate.mk (py "ROE") 72 (18 # 25)].
Proof. vm_compute. reflexivity. Qed.

End WorkedInputs.

(** * Further properties of the services *)

(** ** White space *)

Section StripFacts.
Context {runtime : PyRuntime}.

Lemma lstrip_head (s : str) : not_space_head (lstrip s).
Proof.
  induction s as [|c s IH]; simpl; [done|].
  destruct (is_space c) eqn:E; [done|]. simpl. done.
Qed.

Lemma lstrip_split (s : str) :
  ∃ pre, s = pre ++ lstrip s ∧ Forall (λ c, is_space c = true) pre.
Proof.
  induction s as [|c s (pre & Hs & Hpre)]; simpl.
  - by exists [].
  - destruct (is_space c) eqn:E.
    + exists (c :: pre). split; [by rewrite Hs at 1|by constructor].
    + by exists [].
Qed.

Lemma lstrip_fixed (s : str) : not_space_head s → lstrip s = s.
Proof. destruct s as [|c s]; simpl; [done|]. by intros ->. Qed.

Lemma lstrip_blank (s : str) :
  Forall (λ c, is_space c = true) s → lstrip s = [].
Proof. induction 1 as [|c s Hc _ IH]; simpl; [done|]. by rewrite Hc. Qed.

Lemma not_space_head_rev_suffix (pre t : str) :
  not_space_head (rev (pre ++ t)) → t ≠ [] → not_space_head (rev t).
Proof.
  rewrite rev_app_distr. destruct (rev t) as [|c u] eqn:E; [|done].
  intros _ Ht. apply (f_equal (@rev N)) in E. rewrite rev_involutive in E.
  done.
Qed.

(** [str.strip] leaves no white space at either end, takes only white
    space away, and changes nothing when applied again *)
Lemma strip_spec (s : str) :
  not_space_head (strip s)
  ∧ not_space_head (rev (strip s))
  ∧ (∃ pre post, s = pre ++ strip s ++ post
                 ∧ Forall (λ c, is_space c = true) pre
                 ∧ Forall (λ c, is_space c = true) post)
  ∧ strip (strip s) = strip s.
Proof.
  unfold strip.
  destruct (lstrip_split s) as (pre & Hs & Hpre).
  destruct (lstrip_split (rev (lstrip s))) as (post & Hr & Hpost).
  set (t := lstrip s) in *. set (u := lstrip (rev t)) in *.
  assert (Hu : not_space_head u) by apply lstrip_head.
  assert (Ht : t = rev u ++ rev post).
  { rewrite <- rev_app_distr, <- Hr. by rewrite rev_involutive. }
  assert (Hhead : not_space_head (rev u)).
  { destruct (rev u) as [|c w] eqn:E; [done|].
    pose proof (lstrip_head s) as Hts. fold t in Hts.
    rewrite Ht in Hts. done. }
  split; [done|]. split; [by rewrite rev_involutive|].
  split.
  - exists pre, (rev post). split; [by rewrite <- Ht|].
    split; [done|]. apply Forall_forall. intros c Hc.
    apply list_elem_of_In, in_rev, list_elem_of_In in Hc.
    by eapply Forall_forall in Hpost.
  - rewrite (lstrip_fixed (rev u)) by done.
    rewrite rev_involutive. by rewrite (lstrip_fixed u).
Qed.

Lemma strip_blank (s : str) :
  Forall (λ c, is_space c = true) s → strip s = [].
Proof. intros Hs. unfold strip. by rewrite (lstrip_blank s). Qed.
End StripFacts.

(** ** The matcher, continued *)

Section MatcherFacts.
Context {runtime : PyRuntime}.

Lemma py_round_between (a b : Z) (x : Q) (ndigits : nat) :
  (inject_Z a <= x)%Q → (x <= inject_Z b)%Q →
  (inject_Z a <= py_round x ndigits)%Q ∧ (py_round x ndigits <= inject_Z b)%Q.
Proof.
  intros Ha Hb. rewrite py_round_eq.
  set (scale := (10 ^ Z.of_nat ndigits)%Z).
  assert (Hs : (0 < scale)%Z) by (apply Z.pow_pos_nonneg; lia).
  assert (Hq : (0 <= inject_Z scale)%Q) by (unfold Qle, inject_Z; simpl; lia).
  destruct (round_half_even_bounds (a * scale) (b * scale)
              (x * inject_Z scale)) as [Hl Hu].
  - rewrite inject_Z_mult. by apply Qmult_le_compat_r.
  - rewrite inject_Z_mult. by apply Qmult_le_compat_r.
  - unfold Qle. simpl. rewrite Z2Pos.id by done. lia.
Qed.

(** X1.  The shape of every result: a standard term comes with the types
    [exact] and [semantic] and with no other, candidates with [semantic]
    and [semantic_low], a similarity with every type but [none]; the query
    is handed back as it came *)
Lemma standardize_result_shape (ts : TermService) (query : str) (t : Q) :
  MatchResult.query (standardize ts query t) = query
  ∧ (is_Some (MatchResult.standard_term (standardize ts query t)) ↔
     MatchResult.match_type (standardize ts query t) = Exact
     ∨ MatchResult.match_type (standardize ts query t) = Semantic)
  ∧ (MatchResult.candidates (standardize ts query t) ≠ [] ↔
     MatchResult.match_type (standardize ts query t) = Semantic
     ∨ MatchResult.match_type (standardize ts query t) = SemanticLow)
  ∧ (is_Some (MatchResult.similarity (standardize ts query t)) ↔
     MatchResult.match_type (standardize ts query t) ≠ NoMatch).
Proof.
  unfold standardize.
  repeat first
    [ case_bool_decide
    | match goal with
      | |- context [match ?x with _ => _ end] => destruct x eqn:?
      end ];
    simpl; (split; [done|]);
    repeat split; try done; try (intros [?|?]; done);
    try (intros ?; by eauto); try (by intros [? ?]); try (by intros ?; eauto).
Qed.

(** X2.  Lowering the threshold never loses a semantic match: the result
    stays the same, whatever the lower threshold *)
Lemma standardize_threshold_monotone (ts : TermService) (query : str)
    (t t' : Q) :
  (t' <= t)%Q →
  MatchResult.match_type (standardize ts query t) = Semantic →
  standardize ts query t' = standardize ts query t.
Proof.
  intros Hle. unfold standardize.
  case_bool_decide; [done|].
  destruct (search_exact _ query); [|done].
  destruct (vector_service ts) as [vs|]; [|done].
  destruct (is_initialized vs); [|done].
  destruct (search_similar vs query 5) as [[|best rest]|e]; try done.
  destruct (Qle_bool t (SemResult.similarity best)) eqn:Ht; [|done].
  intros _. apply Qle_bool_iff in Ht.
  assert (Ht' : Qle_bool t' (SemResult.similarity best) = true).
  { apply Qle_bool_iff. by eapply Qle_trans. }
  by rewrite Ht'.
Qed.

(** the threshold changes nothing but the type, the standard term and the
    message: score, similarity and candidates are the same at every
    threshold, and so is the fact of being [exact] or [none] *)
Lemma standardize_threshold_only (ts : TermService) (query : str)
    (t t' : Q) :
  MatchResult.score (standardize ts query t')
  = MatchResult.score (standardize ts query t)
  ∧ MatchResult.similarity (standardize ts query t')
    = MatchResult.similarity (standardize ts query t)
  ∧ MatchResult.candidates (standardize ts query t')
    = MatchResult.candidates (standardize ts query t)
  ∧ (MatchResult.match_type (standardize ts query t) = Exact ↔
     MatchResult.match_type (standardize ts query t') = Exact)
  ∧ (MatchResult.match_type (standardize ts query t) = NoMatch ↔
     MatchResult.match_type (standardize ts query t') = NoMatch).
Proof.
  unfold standardize.
  case_bool_decide; [done|].
  destruct (search_exact _ query); [|done].
  destruct (vector_service ts) as [vs|]; [|done].
  destruct (is_initialized vs); [|done].
  destruct (search_similar vs query 5) as [[|best rest]|e]; try done.
  destruct (Qle_bool t _), (Qle_bool t' _); simpl; repeat split; done.
Qed.

Lemma search_exact_lower (dl : DataLoader) (q1 q2 : str) :
  lower q1 = lower q2 → search_exact dl q1 = search_exact dl q2.
Proof. intros E. unfold search_exact. by rewrite E. Qed.

(** X3.  Exact matching does not see the case of the query: two non-empty
    queries equal up to case get the same exact match or none of them gets
    one *)
Lemma standardize_exact_case_blind (ts : TermService) (q1 q2 : str)
    (t1 t2 : Q) :
  q1 ≠ [] → q2 ≠ [] → lower q1 = lower q2 →
  (MatchResult.match_type (standardize ts q1 t1) = Exact ↔
   MatchResult.match_type (standardize ts q2 t2) = Exact)
  ∧ (MatchResult.match_type (standardize ts q1 t1) = Exact →
     MatchResult.standard_term (standardize ts q2 t2)
     = MatchResult.standard_term (standardize ts q1 t1)).
Proof.
  intros H1 H2 E. unfold standardize.
  rewrite !bool_decide_eq_false_2 by done.
  rewrite (search_exact_lower _ _ _ E).
  destruct (search_exact _ q2); [|done].
  destruct (vector_service ts) as [vs|]; [|done].
  destruct (is_initialized vs); [|done].
  destruct (search_similar vs q1 5) as [[|b1 r1]|e1];
    destruct (search_similar vs q2 5) as [[|b2 r2]|e2]; simpl;
    repeat match goal with |- context [Qle_bool ?a ?b] =>
             destruct (Qle_bool a b) end; simpl; split; done.
Qed.

(** X4.  Among the dictionary rows equal to the query up to case, the
    first in the order of the file gives the standard term *)
Lemma standardize_first_row_wins (ts : TermService) (query : str) (t : Q)
    (before : list Row.t) (row : Row.t) (after : list Row.t) :
  query ≠ [] →
  terms_df (data_loader ts) = before ++ row :: after →
  Forall (λ r, lower (Row.term r) ≠ lower query) before →
  lower (Row.term row) = lower query →
  MatchResult.match_type (standardize ts query t) = Exact
  ∧ MatchResult.standard_term (standardize ts query t)
    = Some (Row.term row).
Proof.
  intros Hq Hdf Hbefore Hrow. unfold standardize, search_exact.
  rewrite bool_decide_eq_false_2 by done.
  rewrite Hdf, filter_app, filter_cons_True by done.
  replace (filter _ before) with (@nil Row.t); [done|].
  symmetry. clear Hdf. induction Hbefore as [|r rs Hr _ IH]; [done|].
  by rewrite filter_cons_False.
Qed.

(** X5.  A vector service that is absent or not initialised is never
    asked: the result is the one of the dictionary alone, an exact match
    or [none] *)
Lemma standardize_without_service (ts : TermService) (query : str) (t : Q) :
  ready_service ts = None →
  standardize ts query t = standardize (without_service ts) query t
  ∧ (MatchResult.match_type (standardize ts query t) = Exact
     ∨ MatchResult.match_type (standardize ts query t) = NoMatch).
Proof.
  unfold ready_service, standardize, without_service. simpl.
  case_bool_decide; [by auto|].
  destruct (search_exact _ query); [|by auto].
  destruct (vector_service ts) as [vs|]; [|by auto].
  destruct (is_initialized vs); [done|by auto].
Qed.

(** X6.  The score lies between 0 and 100 when the retrieved similarities
    lie between 0 and 1, and so does the score of every candidate *)
Lemma standardize_score_range (ts : TermService) (query : str) (t : Q) :
  (∀ vs results r,
     vector_service ts = Some vs →
     search_similar vs query 5 = Returns results →
     r ∈ results → (0 <= SemResult.similarity r <= 1)%Q) →
  (0 <= MatchResult.score (standardize ts query t) <= 100)%Q
  ∧ Forall (λ c, (0 <= Candidate.score c <= 100)%Q)
           (MatchResult.candidates (standardize ts query t)).
Proof.
  intros Hsim.
  assert (Hround : ∀ s, (0 <= s <= 1)%Q →
                        (0 <= py_round (s * 100) 2 <= 100)%Q).
  { intros s [H0 H1].
    apply (py_round_between 0 100);
      [change (inject_Z 0) with 0%Q|change (inject_Z 100) with 100%Q]; lra. }
  unfold standardize.
  case_bool_decide; [split; [split; simpl; lra|constructor]|].
  destruct (search_exact _ query);
    [|split; [split; simpl; lra|constructor]].
  destruct (vector_service ts) as [vs|] eqn:Hvs;
    [|split; [split; simpl; lra|constructor]].
  destruct (is_initialized vs);
    [|split; [split; simpl; lra|constructor]].
  destruct (search_similar vs query 5) as [[|best rest]|e] eqn:Hs;
    try (split; [split; simpl; lra|constructor]).
  assert (Hall : Forall (λ c, (0 <= Candidate.score c <= 100)%Q)
                        (make_candidate <$> best :: rest)).
  { apply Forall_fmap, Forall_forall. intros r Hr. simpl.
    apply Hround. by eapply Hsim. }
  assert (Hb : (0 <= SemResult.similarity best <= 1)%Q)
    by (eapply Hsim; [done..|left]).
  destruct (Qle_bool t _); simpl; (split; [by apply Hround|done]).
Qed.
End MatcherFacts.

(** ** The batch matcher *)

Section BatchFacts.
Context {runtime : PyRuntime}.

Lemma batch_standardize_fmap (ts : TermService) (queries : list str)
    (t : Q) :
  batch_standardize ts queries t
  = (λ query, standardize ts (strip query) t) <$> queries.
Proof.
  unfold batch_standardize.
  assert (G : ∀ acc,
    foldl (λ results query, results ++ [standardize ts (strip query) t])
          acc queries
    = acc ++ ((λ query, standardize ts (strip query) t) <$> queries)).
  { induction queries as [|q qs IH]; intros acc; simpl.
    - by rewrite app_nil_r.
    - rewrite IH. by rewrite <- app_assoc. }
  apply G.
Qed.

(** X7.  One result per query, in the order of the queries; the result of
    a query is the result of [standardize] on the stripped query, whatever
    the other queries are and whatever happens to them *)
Lemma batch_standardize_aligned (ts : TermService) (queries : list str)
    (t : Q) :
  length (batch_standardize ts queries t) = length queries
  ∧ (∀ i query,
       queries !! i = Some query →
       batch_standardize ts queries t !! i
       = Some (standardize ts (strip query) t))
  ∧ (∀ before query after,
       batch_standardize ts (before ++ query :: after) t
       = batch_standardize ts before t
         ++ standardize ts (strip query) t
         :: batch_standardize ts after t).
Proof.
  rewrite batch_standardize_fmap. split; [by rewrite length_fmap|]. split.
  - intros i query Hq. by rewrite list_lookup_fmap, Hq.
  - intros before query after.
    by rewrite !batch_standardize_fmap, fmap_app.
Qed.

(** X8.  A query of white space only is answered like the empty query, and
    white space around a query does not count *)
Lemma batch_standardize_blank (ts : TermService) (queries : list str)
    (t : Q) (i : nat) (query : str) :
  queries !! i = Some query →
  Forall (λ c, is_space c = true) query →
  batch_standardize ts queries t !! i = Some empty_query_result.
Proof.
  intros Hq Hblank.
  rewrite batch_standardize_fmap, list_lookup_fmap, Hq. simpl.
  by rewrite (strip_blank _ Hblank).
Qed.
End BatchFacts.

(** ** The dictionary *)

Section DataLoaderFacts.
Context {runtime : PyRuntime}.

Lemma search_exact_sound (dl : DataLoader) (query : str) (hit : ExactHit.t) :
  hit ∈ search_exact dl query →
  lower (ExactHit.term hit) = lower query
  ∧ ExactHit.term hit ∈ terms_list dl.
Proof.
  intros (row & -> & Hrow)%list_elem_of_fmap.
  apply list_elem_of_filter in Hrow as [Hl Hrow]. simpl. split; [done|].
  unfold terms_list. apply list_elem_of_fmap. by exists row.
Qed.

Lemma search_exact_complete (dl : DataLoader) (query : str) (row : Row.t) :
  row ∈ terms_df dl →
  lower (Row.term row) = lower query →
  ExactHit.mk (Row.term row) (Row.label row) ∈ search_exact dl query.
Proof.
  intros Hrow Hl. unfold search_exact.
  apply list_elem_of_fmap. exists row. split; [done|].
  by apply list_elem_of_filter.
Qed.

Lemma search_exact_finds (dl : DataLoader) (term : str) :
  term ∈ terms_list dl →
  ∃ hit, hit ∈ search_exact dl term ∧ ExactHit.term hit = term.
Proof.
  intros (row & -> & Hrow)%list_elem_of_fmap.
  eexists. split; [by apply search_exact_complete|done].
Qed.

(** X9.  The exact lookup returns the rows equal to the query up to case,
    all of them and in the order of the dictionary; it does not see the
    case of the query, and finds every term of the dictionary *)
Lemma search_exact_lookup (dl : DataLoader) (query : str) :
  (∀ hit, hit ∈ search_exact dl query →
          lower (ExactHit.term hit) = lower query
          ∧ ExactHit.term hit ∈ terms_list dl)
  ∧ (∀ row, row ∈ terms_df dl →
            lower (Row.term row) = lower query →
            ExactHit.mk (Row.term row) (Row.label row)
            ∈ search_exact dl query)
  ∧ ExactHit.term <$> search_exact dl query `sublist_of` terms_list dl
  ∧ (∀ query', lower query' = lower query →
               search_exact dl query' = search_exact dl query)
  ∧ (∀ term, term ∈ terms_list dl →
             ∃ hit, hit ∈ search_exact dl term ∧ ExactHit.term hit = term).
Proof.
  split; [apply search_exact_sound|].
  split; [apply search_exact_complete|]. split; [|split].
  - unfold search_exact, terms_list. rewrite <- list_fmap_compose.
    change (ExactHit.term ∘ (λ r, ExactHit.mk (Row.term r) (Row.label r)))
      with Row.term.
    apply fmap_sublist, sublist_filter.
  - intros query' E. by apply search_exact_lower.
  - apply search_exact_finds.
Qed.

Lemma drop_duplicates_elem (seen : list str) (rows : list Row.t)
    (row : Row.t) :
  row ∈ drop_duplicates seen rows → row ∈ rows ∧ Row.term row ∉ seen.
Proof.
  revert seen. induction rows as [|r rows IH]; intros seen; simpl.
  - by intros ?%elem_of_nil.
  - case_bool_decide as Hr.
    + intros [Hin Hs]%IH. split; [by right|done].
    + intros [->|[Hin Hs]%IH]%elem_of_cons.
      * split; [left|done].
      * split; [by right|]. intros Hn. apply Hs. by right.
Qed.

Lemma drop_duplicates_covers (seen : list str) (rows : list Row.t)
    (row : Row.t) :
  row ∈ rows → Row.term row ∉ seen →
  ∃ kept, kept ∈ drop_duplicates seen rows ∧ Row.term kept = Row.term row.
Proof.
  revert seen. induction rows as [|r rows IH]; intros seen; simpl.
  - by intros ?%elem_of_nil.
  - intros [->|Hin]%elem_of_cons Hs.
    + rewrite bool_decide_eq_false_2 by done. exists r. split; [left|done].
    + case_bool_decide as Hr; [by apply IH|].
      destruct (decide (Row.term row = Row.term r)) as [E|Hne].
      * exists r. split; [left|done].
      * destruct (IH (Row.term r :: seen) Hin) as (kept & Hk & Ht).
        { intros [?|?]%elem_of_cons; done. }
        exists kept. split; [by right|done].
Qed.

Lemma drop_duplicates_NoDup (seen : list str) (rows : list Row.t) :
  NoDup (Row.term <$> drop_duplicates seen rows).
Proof.
  revert seen. induction rows as [|r rows IH]; intros seen; simpl.
  - constructor.
  - case_bool_decide; [apply IH|]. simpl. constructor; [|apply IH].
    intros (kept & E & [_ Hk]%drop_duplicates_elem)%list_elem_of_fmap.
    apply Hk. rewrite E. left.
Qed.

Lemma drop_duplicates_length (seen : list str) (rows : list Row.t) :
  length (drop_duplicates seen rows) ≤ length rows.
Proof.
  revert seen. induction rows as [|r rows IH]; intros seen; simpl; [done|].
  case_bool_decide; simpl.
  - etransitivity; [apply IH|]. apply Nat.le_succ_diag_r.
  - apply le_n_S, IH.
Qed.

Lemma length_omap_le {A B : Type} (f : A → option B) (l : list A) :
  length (omap f l) ≤ length l.
Proof.
  induction l as [|x l IH]; csimpl; [done|]. destruct (f x); simpl; lia.
Qed.

(** X10.  What [load_data] leaves of the rows of the file: every term has
    its white space stripped and is the stripped term of a row, with the
    label of that row; every term of the file is there, stripped; rows are
    only dropped; and the terms are distinct when the file holds them
    without surrounding white space *)
Lemma load_data_terms (csv : list (option str * option str)) :
  (∀ row, row ∈ terms_df (load_data csv) →
          strip (Row.term row) = Row.term row
          ∧ not_space_head (Row.term row)
          ∧ not_space_head (rev (Row.term row))
          ∧ ∃ raw, (Some raw, Row.label row) ∈ csv
                   ∧ Row.term row = strip raw)
  ∧ (∀ raw label, (Some raw, label) ∈ csv →
                  strip raw ∈ terms_list (load_data csv))
  ∧ length (terms_df (load_data csv)) ≤ length csv
  ∧ ((∀ raw label, (Some raw, label) ∈ csv → strip raw = raw) →
     NoDup (terms_list (load_data csv))).
Proof.
  unfold load_data, terms_list. simpl.
  set (dropna := omap _ csv).
  assert (Hdropna : ∀ r, r ∈ dropna ↔ (Some (Row.term r), Row.label r) ∈ csv).
  { intros r. unfold dropna. rewrite list_elem_of_omap. split.
    - intros ([[t|] l] & Hin & Hr); simpl in Hr; [|done].
      by injection Hr as <-.
    - intros Hin. eexists. split; [exact Hin|]. simpl. by destruct r. }
  split; [|split; [|split]].
  - intros row (r & -> & [Hr _]%drop_duplicates_elem)%list_elem_of_fmap.
    simpl. destruct (strip_spec (Row.term r)) as (H1 & H2 & _ & H4).
    repeat split; try done. exists (Row.term r). split; [|done].
    by apply Hdropna.
  - intros raw label Hin.
    destruct (drop_duplicates_covers [] dropna (Row.mk raw label))
      as (kept & Hk & Ht).
    + by apply Hdropna.
    + by intros ?%elem_of_nil.
    + rewrite <- list_fmap_compose. apply list_elem_of_fmap.
      exists kept. split; [|done]. simpl. by rewrite Ht.
  - rewrite length_fmap.
    etransitivity; [apply drop_duplicates_length|apply length_omap_le].
  - intros Hclean. rewrite <- list_fmap_compose.
    assert (E : (Row.term ∘ (λ r, Row.mk (strip (Row.term r)) (Row.label r)))
                  <$> drop_duplicates [] dropna
                = Row.term <$> drop_duplicates [] dropna).
    { apply list_fmap_ext. intros i r Hr. simpl.
      apply list_elem_of_lookup_2, drop_duplicates_elem in Hr as [Hr _].
      apply Hdropna in Hr. by eapply Hclean. }
    rewrite E. apply drop_duplicates_NoDup.
Qed.

(** X11.  Duplicates are dropped before the white space is stripped: two
    terms of the file that differ only by surrounding white space both
    stay, as the same term, and the exact lookup then returns it twice *)
Lemma load_data_keeps_variants (t1 t2 : str) (l1 l2 : option str) :
  t1 ≠ t2 → strip t1 = strip t2 →
  terms_list (load_data [(Some t1, l1); (Some t2, l2)])
  = [strip t1; strip t1]
  ∧ search_exact (load_data [(Some t1, l1); (Some t2, l2)]) (strip t1)
    = [ExactHit.mk (strip t1) l1; ExactHit.mk (strip t1) l2].
Proof.
  intros Hne E. unfold load_data, terms_list, search_exact. simpl.
  rewrite (bool_decide_eq_false_2 (t2 ∈ [t1]))
    by (intros ?%list_elem_of_singleton; done).
  simpl. rewrite <- E. split; [done|].
  rewrite filter_cons_True by done. rewrite filter_cons_True by done.
  done.
Qed.

Lemma py_index_Some {A : Type} (l : list A) (index : Z) (x : A) :
  py_index l index = Some x → x ∈ l.
Proof.
  unfold py_index. repeat case_match; try done;
    intros Hx; by eapply list_elem_of_lookup_2.
Qed.

(** X12.  [get_term_by_index] answers for the indices from [-n] to [n -
    1], [n] being the number of terms, a negative index counting from the
    end; what it answers is a term of the dictionary, which the exact
    lookup finds *)
Lemma get_term_by_index_bounds (dl : DataLoader) (index : Z) :
  (is_Some (get_term_by_index dl index) ↔
   (- Z.of_nat (length (get_all_terms dl)) ≤ index
    < Z.of_nat (length (get_all_terms dl)))%Z)
  ∧ ((0 ≤ index)%Z →
     get_term_by_index dl index = get_all_terms dl !! Z.to_nat index)
  ∧ ((index < 0)%Z →
     (- Z.of_nat (length (get_all_terms dl)) ≤ index)%Z →
     get_term_by_index dl index
     = get_term_by_index dl (index + Z.of_nat (length (get_all_terms dl))))
  ∧ (∀ term, get_term_by_index dl index = Some term →
             term ∈ get_all_terms dl
             ∧ ∃ hit, hit ∈ search_exact dl term
                      ∧ ExactHit.term hit = term).
Proof.
  unfold get_term_by_index, get_all_terms.
  set (n := length (terms_list dl)).
  split; [|split; [|split]].
  - unfold py_index. fold n.
    destruct (Z.leb_spec 0 index).
    + rewrite lookup_lt_is_Some. fold n. lia.
    + destruct (Z.leb_spec 0 (index + Z.of_nat n)).
      * rewrite lookup_lt_is_Some. fold n. lia.
      * split; [by intros [? ?]|lia].
  - intros Hi. unfold py_index.
    by destruct (Z.leb_spec 0 index); [|lia].
  - intros Hneg Hlo. unfold py_index. fold n.
    destruct (Z.leb_spec 0 index); [lia|].
    destruct (Z.leb_spec 0 (index + Z.of_nat n)); [|lia]. done.
  - intros term Hterm%py_index_Some. split; [done|].
    by apply search_exact_finds.
Qed.

Lemma length_remove_dups_le {A : Type} `{EqDecision A} (l : list A) :
  length (remove_dups l) ≤ length l.
Proof.
  induction l as [|x l IH]; simpl; [done|]. case_match; simpl; lia.
Qed.

(** the statistics: as many terms as the dictionary has rows, and no more
    distinct labels than rows; no label is counted when every row lacks
    one *)
Lemma get_stats_bounds (dl : DataLoader) :
  DataStats.total_terms (get_stats dl) = length (terms_df dl)
  ∧ DataStats.unique_labels (get_stats dl)
    ≤ DataStats.total_terms (get_stats dl)
  ∧ (DataStats.unique_labels (get_stats dl) = 0 ↔
     Forall (λ row, Row.label row = None) (terms_df dl)).
Proof.
  unfold get_stats, terms_list. simpl. rewrite length_fmap.
  split; [done|]. split.
  - etransitivity; [apply length_remove_dups_le|apply length_omap_le].
  - rewrite length_zero_iff_nil. split.
    + intros Hnil. apply Forall_forall. intros row Hrow.
      destruct (Row.label row) as [l|] eqn:E; [|done].
      assert (Hl : l ∈ remove_dups (omap Row.label (terms_df dl))).
      { apply elem_of_remove_dups, list_elem_of_omap. by exists row. }
      rewrite Hnil in Hl. by apply elem_of_nil in Hl.
    + intros Hall.
      replace (omap Row.label (terms_df dl)) with (@nil str); [done|].
      symmetry. induction Hall as [|row rows Hrow _ IH]; [done|].
      simpl. by rewrite Hrow.
Qed.
End DataLoaderFacts.

(** ** The text pass, continued *)

Section TextPassFacts.
Context {runtime : PyRuntime}.

(** a hit of a scan is a piece of the text *)
Lemma scan_hit_infix (fuel : nat) (ic : bool) (re : regex)
    (prev : option N) (s w : str) :
  length s < fuel →
  Hit w ∈ scan fuel ic re prev s →
  ∃ before after, s = before ++ w ++ after.
Proof.
  revert prev s. induction fuel as [|fuel IH]; intros prev s Hf; [lia|].
  cbn [scan].
  assert (Hadv : Hit w ∈ match s with
                         | c :: s' => Skip c :: scan fuel ic re (Some c) s'
                         | [] => []
                         end →
                 ∃ before after, s = before ++ w ++ after).
  { destruct s as [|c s]; [by intros ?%elem_of_nil|].
    intros [?|Hin]%elem_of_cons; [done|].
    destruct (IH (Some c) s) as (before & after & ->);
      [simpl in Hf; lia|done|].
    by exists (c :: before), after. }
  destruct (match_here ic re prev s) as [[|n]|] eqn:E; [| |done].
  - intros [[= ->]|Hin]%elem_of_cons; [by exists [], s|by apply Hadv].
  - apply match_here_sound in E as [_ Hn].
    intros [[= ->]|Hin]%elem_of_cons.
    + exists [], (drop (S n) s). simpl. by rewrite take_drop.
    + destruct (IH (prev_after prev (take (S n) s)) (drop (S n) s))
        as (before & after & Hd); [rewrite length_drop; lia|done|].
      exists (take (S n) s ++ before), after.
      rewrite <- app_assoc, <- Hd. by rewrite take_drop.
Qed.

Lemma findall_infix (ic : bool) (re : regex) (s w : str) :
  w ∈ findall ic re s → ∃ before after, s = before ++ w ++ after.
Proof.
  unfold findall. intros (p & Hp & Hw)%list_elem_of_omap.
  destruct p as [c|w']; [done|]. injection Hw as ->.
  eapply scan_hit_infix; [|exact Hp]. lia.
Qed.

Lemma extract_terms_source (text : str) (min_word_length : Z) (w : str) :
  w ∈ extract_terms text min_word_length →
  w ∈ findall false single_word_re text
  ∨ w ∈ findall false bigram_re text
  ∨ w ∈ findall false trigram_re text
  ∨ w ∈ findall false chinese_re text.
Proof.
  rewrite extract_terms_first_by_key. unfold spec_candidates.
  intros Hw%first_by_key_elem. rewrite !elem_of_app in Hw.
  destruct Hw as [Hw|[Hw|[Hw|Hw]]]; auto.
  apply list_elem_of_filter in Hw as [_ Hw]. auto.
Qed.

Lemma candidate_infix (text : str) (min_word_length : Z) (w : str) :
  w ∈ extract_terms text min_word_length →
  w ≠ [] ∧ ∃ before after, text = before ++ w ++ after.
Proof.
  intros Hw. split; [by eapply extract_terms_nonempty|].
  apply extract_terms_source in Hw as [Hw|[Hw|[Hw|Hw]]];
    by eapply findall_infix.
Qed.

Lemma candidate_keys_NoDup (text : str) (min_word_length : Z) :
  NoDup (lower <$> extract_terms text min_word_length).
Proof. rewrite extract_terms_first_by_key. apply first_by_key_NoDup. Qed.

(** X13.  Every candidate is a non-empty piece of the text, and no two
    candidates are equal up to case *)
Lemma candidates_from_text (text : str) (min_word_length : Z) :
  (∀ w, w ∈ extract_terms text min_word_length →
        w ≠ [] ∧ ∃ before after, text = before ++ w ++ after)
  ∧ NoDup (lower <$> extract_terms text min_word_length)
  ∧ NoDup (extract_terms text min_word_length).
Proof.
  split; [apply candidate_infix|].
  split; [apply candidate_keys_NoDup|].
  eapply NoDup_fmap_1, candidate_keys_NoDup.
Qed.

(** what one candidate can be identified as *)
Lemma identify_one_item (dl : DataLoader) (vs : VectorService) (th : Q)
    (term : str) (item : IdentifiedTerm.t) :
  item ∈ (identify_one dl vs th term).1 →
  IdentifiedTerm.original item = term
  ∧ ((IdentifiedTerm.match_type item = Exact
      ∧ IdentifiedTerm.similarity item = 1%Q
      ∧ IdentifiedTerm.standard item ≠ term
      ∧ lower (IdentifiedTerm.standard item) = lower term
      ∧ IdentifiedTerm.standard item ∈ terms_list dl)
     ∨ (IdentifiedTerm.match_type item = Semantic
        ∧ (th <= IdentifiedTerm.similarity item)%Q
        ∧ lower (IdentifiedTerm.standard item) ≠ lower term
        ∧ search_exact dl term = []
        ∧ ∃ best rest,
            search_similar vs term 1 = Returns (best :: rest)
            ∧ IdentifiedTerm.standard item = SemResult.term best
            ∧ IdentifiedTerm.similarity item = SemResult.similarity best)).
Proof.
  unfold identify_one.
  destruct (search_exact dl term) as [|hit hits] eqn:Hex; simpl.
  - destruct (search_similar vs term 1) as [[|best rest]|e]; simpl;
      try by intros ?%elem_of_nil.
    destruct (Qle_bool th _) eqn:Hth; [|by intros ?%elem_of_nil].
    case_bool_decide as Hne; [|by intros ?%elem_of_nil].
    intros ->%list_elem_of_singleton. simpl. split; [done|]. right.
    apply Qle_bool_iff in Hth.
    split; [done|]. split; [done|].
    split; [intros E; apply Hne; by rewrite E|].
    split; [done|]. by exists best, rest.
  - case_bool_decide as Hne; [|by intros ?%elem_of_nil].
    intros ->%list_elem_of_singleton. simpl. split; [done|]. left.
    assert (Hin : hit ∈ search_exact dl term) by (rewrite Hex; left).
    apply search_exact_sound in Hin as [Hl Hd].
    split; [done|]. split; [done|].
    split; [intros E; apply Hne; by rewrite E|]. done.
Qed.

(** X14.  The identified terms of a result: each original is a non-empty
    piece of the text; an [exact] term has similarity 1.0 and a standard
    term of the dictionary that is the original up to case but not the
    original; a [semantic] term has no exact hit, a similarity that
    reaches the threshold and a standard term that differs from the
    original even up to case *)
Lemma identified_terms_facts (ts : TermService) (text : str) (th : Q)
    (min_word_length : Z) (r : TextResult.t) (item : IdentifiedTerm.t) :
  identify_and_replace_terms ts text th min_word_length = Returns r →
  item ∈ TextResult.identified_terms r →
  IdentifiedTerm.original item ≠ []
  ∧ (∃ before after,
       text = before ++ IdentifiedTerm.original item ++ after)
  ∧ ((IdentifiedTerm.match_type item = Exact
      ∧ IdentifiedTerm.similarity item = 1%Q
      ∧ IdentifiedTerm.standard item ≠ IdentifiedTerm.original item
      ∧ lower (IdentifiedTerm.standard item)
        = lower (IdentifiedTerm.original item)
      ∧ IdentifiedTerm.standard item ∈ terms_list (data_loader ts))
     ∨ (IdentifiedTerm.match_type item = Semantic
        ∧ (th <= IdentifiedTerm.similarity item)%Q
        ∧ lower (IdentifiedTerm.standard item)
          ≠ lower (IdentifiedTerm.original item)
        ∧ search_exact (data_loader ts) (IdentifiedTerm.original item)
          = [])).
Proof.
  unfold identify_and_replace_terms.
  destruct (if bool_decide (text = []) then None else ready_service ts)
    as [vs|].
  - destruct (replacement_pass _ _) as [st|e]; simpl; [|done].
    intros [= <-]. simpl.
    intros [Hcand Hone]%identification_pass_elem.
    apply candidate_infix in Hcand as [Hne Hinfix].
    apply identify_one_item in Hone as [_ Hkind].
    split; [done|]. split; [done|].
    destruct Hkind as [(?&?&?&?&?)|(?&?&?&?&_)]; [left|right]; done.
  - intros [= <-]. simpl. by intros ?%elem_of_nil.
Qed.

Lemma identify_one_keys (dl : DataLoader) (vs : VectorService) (th : Q)
    (term : str) :
  (λ item, lower (IdentifiedTerm.original item))
    <$> (identify_one dl vs th term).1
  `sublist_of` [lower term].
Proof.
  unfold identify_one.
  repeat first
    [ case_bool_decide
    | match goal with
      | |- context [match ?x with _ => _ end] => destruct x
      end ]; simpl; try done; apply sublist_nil_l.
Qed.

(** X15.  No two identified terms have the same original, even up to case *)
Lemma identified_originals_distinct (ts : TermService) (text : str)
    (th : Q) (min_word_length : Z) (r : TextResult.t) :
  identify_and_replace_terms ts text th min_word_length = Returns r →
  NoDup ((λ item, lower (IdentifiedTerm.original item))
           <$> TextResult.identified_terms r).
Proof.
  unfold identify_and_replace_terms.
  destruct (if bool_decide (text = []) then None else ready_service ts)
    as [vs|].
  - destruct (replacement_pass _ _) as [st|e]; simpl; [|done].
    intros [= <-]. simpl. rewrite identification_pass_flat. simpl.
    pose proof (candidate_keys_NoDup text min_word_length) as Hkeys.
    revert Hkeys. generalize (extract_terms text min_word_length).
    intros terms Hkeys.
    eapply sublist_NoDup; [exact Hkeys|].
    clear Hkeys. induction terms as [|term terms IH]; simpl; [done|].
    rewrite fmap_app.
    apply (sublist_app _ [lower term] _ (lower <$> terms));
      [apply identify_one_keys|done].
  - intros [= <-]. simpl. constructor.
Qed.

Lemma Replaced_no_record (text : str) (items : list IdentifiedTerm.t)
    (text' : str) (records : list ReplacementRecord.t) :
  Replaced text items text' records → records = [] → text' = text.
Proof. induction 1; [done|done|done]. Qed.

Lemma StronglySorted_sublist {A : Type} (R : A → A → Prop) (l k : list A) :
  l `sublist_of` k → StronglySorted R k → StronglySorted R l.
Proof.
  induction 1 as [|x l k Hs IH|x l k Hs IH]; intros Hk.
  - constructor.
  - apply StronglySorted_inv in Hk as [Hk Hx].
    constructor; [by apply IH|].
    apply Forall_forall. intros y Hy.
    eapply Forall_forall in Hx; [exact Hx|]. by eapply elem_of_sublist.
  - apply StronglySorted_inv in Hk as [Hk _]. by apply IH.
Qed.

Lemma sum_counts_ge (records : list ReplacementRecord.t) :
  Forall (λ record, 0 < ReplacementRecord.count record) records →
  length records ≤ sum_counts records.
Proof.
  unfold sum_counts. induction 1 as [|r rs Hr _ IH]; csimpl; [done|].
  cbn [length] in *. lia.
Qed.

(** what a returned result is made of *)
Lemma identify_returns (ts : TermService) (vs : VectorService) (text : str)
    (th : Q) (min_word_length : Z) (r : TextResult.t) :
  text ≠ [] →
  ready_service ts = Some vs →
  identify_and_replace_terms ts text th min_word_length = Returns r →
  TextResult.identified_terms r
  = (identification_pass (data_loader ts) vs th
       (extract_terms text min_word_length)).1
  ∧ Replaced text
      (sorted_desc original_length (TextResult.identified_terms r))
      (TextResult.processed_text r) (TextResult.replacements r)
  ∧ Forall (λ record, 0 < ReplacementRecord.count record)
           (TextResult.replacements r)
  ∧ TextResult.total_replacements r
    = Some (sum_counts (TextResult.replacements r)).
Proof.
  intros Htext Hvs. unfold identify_and_replace_terms.
  rewrite bool_decide_eq_false_2, Hvs by done.
  destruct (replacement_pass _ _) as [[text' records]|e] eqn:E;
    simpl; [|done].
  intros [= <-]. simpl.
  apply replacement_pass_replaced in E as (emitted & -> & HR).
  - simpl. repeat split; try done. by eapply Replaced_counts.
  - intros item Hitem. rewrite (sorted_desc_perm original_length) in Hitem.
    by eapply identified_original_nonempty.
Qed.

(** X16.  The records of a result: each is the record of an identified
    term; they come by non-increasing length of the original; there are no
    more of them than identified terms and no more than replacements; and
    without a record the text comes back unchanged *)
Lemma replacement_records_facts (ts : TermService) (text : str) (th : Q)
    (min_word_length : Z) (r : TextResult.t) :
  identify_and_replace_terms ts text th min_word_length = Returns r →
  (∀ record, record ∈ TextResult.replacements r →
             ∃ item, item ∈ TextResult.identified_terms r
                     ∧ record = record_of item
                                  (ReplacementRecord.count record))
  ∧ StronglySorted
      (λ a b, length (ReplacementRecord.original b)
              ≤ length (ReplacementRecord.original a))
      (TextResult.replacements r)
  ∧ length (TextResult.replacements r)
    ≤ length (TextResult.identified_terms r)
  ∧ (∀ total, TextResult.total_replacements r = Some total →
              length (TextResult.replacements r) ≤ total)
  ∧ (TextResult.replacements r = [] →
     TextResult.processed_text r = text).
Proof.
  intros Hr.
  destruct (decide (text = [])) as [->|Htext].
  { injection Hr as <-. simpl.
    repeat split; try done; [by intros ? ?%elem_of_nil|constructor]. }
  destruct (ready_service ts) as [vs|] eqn:Hvs; cycle 1.
  { revert Hr. unfold identify_and_replace_terms.
    rewrite bool_decide_eq_false_2, Hvs by done. intros [= <-]. simpl.
    repeat split; try done; [by intros ? ?%elem_of_nil|constructor]. }
  destruct (identify_returns ts vs text th min_word_length r Htext Hvs Hr)
    as (Hids & HR & Hcounts & Htotal).
  destruct (Replaced_sublist _ _ _ _ HR) as (kept & Hsub & Hf2).
  assert (Hkept : ∀ item, item ∈ kept →
                          item ∈ TextResult.identified_terms r).
  { intros item Hitem.
    rewrite <- (sorted_desc_perm original_length).
    by eapply elem_of_sublist. }
  split; [|split; [|split; [|split]]].
  - intros record Hrec.
    apply list_elem_of_lookup in Hrec as [i Hi].
    destruct (Forall2_lookup_l _ _ _ _ _ Hf2 Hi) as (item & Hk & n & ->).
    exists item. split; [|done].
    apply Hkept. by eapply list_elem_of_lookup_2.
  - assert (Hsorted : StronglySorted (key_ge original_length) kept).
    { eapply StronglySorted_sublist; [exact Hsub|].
      apply sorted_desc_sorted. }
    clear -Hf2 Hsorted. induction Hf2 as [|rec item recs items [n ->] Hf2 IH].
    + constructor.
    + apply StronglySorted_inv in Hsorted as [Hs Hall].
      constructor; [by apply IH|].
      clear IH Hs. induction Hf2 as [|rec' item' ? ? [n' ->] _ IH'];
        [constructor|].
      apply Forall_cons in Hall as [Hh Hall].
      constructor; [exact Hh|by apply IH'].
  - rewrite (Forall2_length _ _ _ Hf2).
    rewrite <- (Permutation_length
                  (sorted_desc_perm original_length
                     (TextResult.identified_terms r))).
    by apply sublist_length.
  - intros total Ht. rewrite Htotal in Ht. injection Ht as <-.
    by apply sum_counts_ge.
  - intros Hnone. by eapply Replaced_no_record.
Qed.
End TextPassFacts.

Section TextPassEdges.
Context {runtime : PyRuntime}.

Lemma is_token_letter (w : str) :
  is_token w → ∃ c, c ∈ w ∧ is_letter c = true.
Proof. intros (c & u & -> & Hc & _). exists c. split; [left|done]. Qed.

(** every candidate holds a Latin letter or a CJK character *)
Lemma candidate_has_letter (text : str) (min_word_length : Z) (w : str) :
  w ∈ extract_terms text min_word_length →
  ∃ c, c ∈ w ∧ (is_letter c = true ∨ is_cjk c = true).
Proof.
  intros [[Ht _]|[Hb|[Ht|Hc]]]%extract_terms_shape.
  - destruct (is_token_letter _ Ht) as (c & Hc & Hl). eauto.
  - destruct Hb as (t1 & sp & t2 & -> & Ht1 & _).
    destruct (is_token_letter _ Ht1) as (c & Hc & Hl).
    exists c. split; [|by left]. apply elem_of_app. by left.
  - destruct Ht as (t1 & ? & ? & ? & ? & -> & Ht1 & _).
    destruct (is_token_letter _ Ht1) as (c & Hc & Hl).
    exists c. split; [|by left]. apply elem_of_app. by left.
  - destruct Hc as [[Hlen _] Hall]. destruct w as [|c w]; [simpl in Hlen; lia|].
    exists c. split; [left|]. right. by apply Forall_cons in Hall as [? _].
Qed.

(** X17.  A text without Latin letter and without CJK character has no
    candidate: with a ready vector service it comes back unchanged, no
    term identified, no replacement, the total 0, and the vector service
    is not asked *)
Lemma text_without_letters (ts : TermService) (vs : VectorService)
    (text : str) (th : Q) (min_word_length : Z) :
  text ≠ [] →
  ready_service ts = Some vs →
  Forall (λ c, is_letter c = false ∧ is_cjk c = false) text →
  extract_terms text min_word_length = []
  ∧ (identification_pass (data_loader ts) vs th
       (extract_terms text min_word_length)).2 = []
  ∧ identify_and_replace_terms ts text th min_word_length
    = Returns (TextResult.mk text text [] [] (Some 0) (MsgReplaced 0 0)).
Proof.
  intros Htext Hvs Hall.
  assert (E : extract_terms text min_word_length = []).
  { destruct (extract_terms text min_word_length) as [|w ws] eqn:E; [done|].
    assert (Hw : w ∈ extract_terms text min_word_length)
      by (rewrite E; left).
    destruct (candidate_has_letter _ _ _ Hw) as (c & Hc & Hkind).
    apply candidate_infix in Hw as [_ (before & after & Ht)].
    assert (Hin : c ∈ text).
    { rewrite Ht, !elem_of_app. auto. }
    eapply Forall_forall in Hall as [Hl Hj]; [|exact Hin].
    destruct Hkind; congruence. }
  split; [done|]. rewrite E. split; [done|].
  unfold identify_and_replace_terms.
  rewrite bool_decide_eq_false_2, Hvs, E by done. done.
Qed.

(** without a ready vector service the text pass does nothing at all: the
    text comes back unchanged, the dictionary is not even consulted *)
Lemma identify_without_service (ts : TermService) (text : str) (th : Q)
    (min_word_length : Z) :
  ready_service ts = None →
  identify_and_replace_terms ts text th min_word_length
  = Returns (TextResult.mk text text [] [] None MsgNoText)
  ∧ identify_and_replace_terms ts text th min_word_length
    = identify_and_replace_terms
        {| data_loader := {| terms_df := [] |};
           vector_service := vector_service ts |}
        text th min_word_length.
Proof.
  intros Hvs. unfold identify_and_replace_terms.
  assert (Hvs' : ready_service
                   {| data_loader := {| terms_df := [] |};
                      vector_service := vector_service ts |} = None)
    by exact Hvs.
  rewrite Hvs, Hvs'. by case_bool_decide.
Qed.
End TextPassEdges.

(** ** Similar terms, continued *)

Section SimilarTermsMore.
Context {runtime : PyRuntime}.

(** every entry stands for a retrieved result that reaches the threshold,
    with the similarity rounded to four places, and the entries keep the
    order of the retrieved results *)
Lemma get_similar_terms_entries (ts : TermService) (vs : VectorService)
    (term : str) (limit : Z) (threshold : Q) (results : list SemResult.t) :
  ready_service ts = Some vs →
  search_similar vs term (limit + 5) = Returns results →
  (∀ entry, entry ∈ get_similar_terms ts term limit threshold →
            ∃ result, result ∈ results
                      ∧ SimilarTerm.term entry = SemResult.term result
                      ∧ SimilarTerm.similarity entry
                        = py_round (SemResult.similarity result) 4
                      ∧ (threshold <= SemResult.similarity result)%Q)
  ∧ SimilarTerm.term <$> get_similar_terms ts term limit threshold
    `sublist_of` SemResult.term <$> results.
Proof.
  intros Hvs Hres. rewrite get_similar_terms_spec, Hvs, Hres. split.
  - intros entry Hin%subseteq_take.
    apply list_elem_of_fmap in Hin as (r & -> & Hr).
    apply list_elem_of_filter in Hr as [[_ Hle] Hr]. by exists r.
  - etransitivity; [apply fmap_sublist, sublist_take|].
    rewrite <- list_fmap_compose.
    change (SimilarTerm.term ∘ similar_entry) with SemResult.term.
    apply fmap_sublist, sublist_filter.
Qed.

(** X18.  [get_similar_terms] in full: nothing when the vector service is
    absent or not initialised, or when the retrieval raises; otherwise the
    results that differ from the reference term up to case and reach the
    threshold, the first [max 1 limit] of them, in the order of the
    retrieval, each with its similarity rounded to four places *)
Theorem similar_terms_characterised (ts : TermService) (term : str)
    (limit : Z) (threshold : Q) :
  get_similar_terms ts term limit threshold
  = match ready_service ts with
    | Some vs =>
        match search_similar vs term (limit + 5) with
        | Returns results =>
            take (Z.to_nat (Z.max 1 limit))
                 (similar_entry
                    <$> filter (similar_enough term threshold) results)
        | Raises _ => []
        end
    | None => []
    end.
Proof. apply get_similar_terms_spec. Qed.
End SimilarTermsMore.

(** ** Retrieval *)

Section RetrievalMore.
Local Open Scope Q_scope.





(** the formatting loop: one result per document, in the order of the
    index, unless a distance is -1, in which case the division raises *)
Lemma format_results_spec (docs : list (str * Q)) :
  match format_results docs with
  | Returns rs =>
      Forall2 (λ r doc,
                 SemResult.term r = doc.1
                 ∧ SemResult.similarity r = py_round (1 / (1 + doc.2)) 4
                 ∧ SemResult.distance r = py_round doc.2 4)
              rs docs
      ∧ Forall (λ doc, ¬ 1 + doc.2 == 0) docs
  | Raises e =>
      e = ZeroDivisionError ∧ Exists (λ doc, 1 + doc.2 == 0) docs
  end.
Proof.
  induction docs as [|[doc d] docs IH]; simpl.
  - split; constructor.
  - destruct (Qeq_bool (1 + d) 0) eqn:E.
    + apply Qeq_bool_iff in E. split; [done|]. by left.
    + assert (Hd : ¬ 1 + d == 0).
      { intros Hz. apply Qeq_bool_iff in Hz. congruence. }
      destruct (format_results docs) as [rs|e]; simpl.
      * destruct IH as [Hf Hn]. split; constructor; done.
      * destruct IH as [-> Hex]. split; [done|]. by right.
Qed.

(** X22.  When [search_similar] returns and when it raises *)
Lemma search_similar_cases (vs : VectorService) (query : str) (top_k : Z) :
  match search_similar vs query top_k with
  | Returns rs =>
      is_initialized vs = true
      ∧ ((query = [] ∧ rs = [])
         ∨ (query ≠ []
            ∧ ∃ docs,
                collection_query vs query top_k = Returns docs
                ∧ SemResult.term <$> rs = fst <$> docs
                ∧ Forall (λ doc, ¬ 1 + doc.2 == 0) docs))
  | Raises e =>
      (is_initialized vs = false ∧ e = RuntimeError)
      ∨ (is_initialized vs = true ∧ query ≠ []
         ∧ (collection_query vs query top_k = Raises e
            ∨ ∃ docs,
                collection_query vs query top_k = Returns docs
                ∧ e = ZeroDivisionError
                ∧ Exists (λ doc, 1 + doc.2 == 0) docs))
  end.
Proof.
  unfold search_similar.
  destruct (is_initialized vs); simpl; [|by left].
  case_bool_decide as Hq; [by auto|].
  destruct (collection_query vs query top_k) as [docs|e] eqn:E; simpl;
    [|by right; auto].
  pose proof (format_results_spec docs) as Hspec.
  pose proof (format_results_terms docs) as Hterms.
  destruct (format_results docs) as [rs|e].
  - destruct Hspec as [_ Hn]. split; [done|]. right. split; [done|].
    exists docs. auto.
  - destruct Hspec as [-> Hex]. right. split; [done|]. split; [done|].
    right. by exists docs.
Qed.


End RetrievalMore.

(** ** Building the index *)

Section IndexFacts.

Lemma numbered_app (start : nat) (l1 l2 : list str) :
  numbered start (l1 ++ l2)
  = numbered start l1 ++ numbered (start + length l1) l2.
Proof.
  unfold numbered. rewrite length_app, seq_app.
  rewrite zip_with_app; [done|]. by rewrite length_seq.
Qed.

Lemma numbered_fields (start : nat) (terms : list str) :
  IndexEntry.document <$> numbered start terms = terms
  ∧ IndexEntry.id <$> numbered start terms = seq start (length terms).
Proof.
  unfold numbered. revert start.
  induction terms as [|t terms IH]; intros start; [done|].
  destruct (IH (S start)) as [Hd Hi].
  cbn [length seq zip_with]. rewrite !fmap_cons, Hd, Hi. done.
Qed.

Lemma chunks_concat (step : nat) (terms : list str) (k j : nat) :
  0 < step →
  length (drop (j * step) terms) ≤ k * step →
  concat ((λ i, numbered i (take step (drop i terms)))
            <$> ((λ k, k * step) <$> seq j k))
  = numbered (j * step) (drop (j * step) terms).
Proof.
  intros Hstep. revert j. induction k as [|k IH]; intros j Hlen.
  - simpl. apply Nat.le_0_r, length_zero_iff_nil in Hlen. by rewrite Hlen.
  - cbn [seq fmap list_fmap concat].
    set (rest := drop (j * step) terms) in *.
    assert (Hdrop : drop (S j * step) terms = drop step rest).
    { unfold rest. rewrite drop_drop. f_equal. lia. }
    rewrite IH by (rewrite Hdrop, length_drop; lia).
    rewrite Hdrop.
    rewrite <- (take_drop step rest) at 3. rewrite numbered_app.
    f_equal.
    destruct (Nat.le_gt_cases step (length rest)) as [Hge|Hlt].
    + rewrite length_take, Nat.min_l by done. f_equal. lia.
    + rewrite (drop_ge rest step) by lia. done.
Qed.

Lemma ceiling_bounds (n step : nat) :
  0 < step →
  n ≤ (n + step - 1) / step * step
  ∧ ∀ k, k < (n + step - 1) / step → k * step < n.
Proof.
  intros Hstep.
  pose proof (Nat.div_mod_eq (n + step - 1) step) as Hdm.
  pose proof (Nat.mod_upper_bound (n + step - 1) step ltac:(lia)) as Hm.
  split; [nia|]. intros k Hk. nia.
Qed.

Lemma index_batches_concat (terms : list str) :
  concat (index_batches terms) = numbered 0 terms.
Proof.
  assert (Hstep : 0 < batch_size) by (unfold batch_size; lia).
  destruct (ceiling_bounds (length terms) batch_size Hstep) as [Hup _].
  unfold index_batches, py_range_step.
  pose proof (chunks_concat batch_size terms
                ((length terms + batch_size - 1) / batch_size) 0 Hstep)
    as Hc.
  simpl in Hc. apply Hc. exact Hup.
Qed.

(** X23.  The index is built batch by batch: no batch is empty or has more
    than 100 terms, and together the batches hold every term once, in the
    order of the list, the term at position [j] under the identifier [j] *)
Lemma index_batches_partition (terms : list str) :
  concat (index_batches terms) = numbered 0 terms
  ∧ IndexEntry.document <$> concat (index_batches terms) = terms
  ∧ IndexEntry.id <$> concat (index_batches terms) = seq 0 (length terms)
  ∧ Forall (λ batch, 0 < length batch ≤ batch_size) (index_batches terms)
  ∧ length (index_batches terms)
    = (length terms + batch_size - 1) / batch_size.
Proof.
  assert (Hstep : 0 < batch_size) by (unfold batch_size; lia).
  destruct (ceiling_bounds (length terms) batch_size Hstep) as [Hup Hlow].
  pose proof (index_batches_concat terms) as E.
  split; [done|]. rewrite E.
  destruct (numbered_fields 0 terms) as [Hdoc Hid].
  split; [done|]. split; [done|]. split.
  - unfold index_batches, py_range_step.
    apply Forall_fmap, Forall_fmap, Forall_forall.
    intros k Hk%elem_of_seq. simpl.
    rewrite length_zip_with, length_seq, Nat.min_id, length_take, length_drop.
    specialize (Hlow k ltac:(lia)). lia.
  - unfold index_batches, py_range_step. by rewrite !length_fmap, length_seq.
Qed.

Lemma add_batches_all (encodes : list str → bool)
    (batches : list (list IndexEntry.t)) (collection : list IndexEntry.t) :
  Forall (λ batch, encodes (IndexEntry.document <$> batch) = true) batches →
  add_batches encodes batches collection
  = (collection ++ concat batches, true).
Proof.
  intros Hall. revert collection.
  induction Hall as [|b bs Hb _ IH]; intros collection; simpl.
  - by rewrite app_nil_r.
  - rewrite Hb, IH. by rewrite <- app_assoc.
Qed.

Lemma add_batches_prefix (encodes : list str → bool)
    (batches : list (list IndexEntry.t)) (collection : list IndexEntry.t) :
  ∃ added, added `prefix_of` batches
           ∧ (add_batches encodes batches collection).1
             = collection ++ concat added
           ∧ ((add_batches encodes batches collection).2 = true →
              added = batches).
Proof.
  revert collection. induction batches as [|b bs IH]; intros collection.
  - exists []. simpl. by rewrite app_nil_r.
  - simpl. destruct (encodes _).
    + destruct (IH (collection ++ b)) as (added & Hp & Hc & Hok).
      exists (b :: added). split; [by apply prefix_cons|].
      split; [by rewrite Hc, <- app_assoc|]. intros Ht. by rewrite Hok.
    + exists []. split; [apply prefix_nil|]. simpl.
      by rewrite app_nil_r.
Qed.

(** X24.  [initialize] returns exactly when it leaves the service
    initialised; a service that is initialised is left as it is, so that a
    second call changes nothing; a call that raises leaves the service
    uninitialised *)
Lemma initialize_flag (model_loads : bool) (encodes : list str → bool)
    (st : IndexState) (terms : list str) :
  ((initialize model_loads encodes st terms).2 = true ↔
   index_initialized (initialize model_loads encodes st terms).1 = true)
  ∧ (index_initialized st = true →
     initialize model_loads encodes st terms = (st, true))
  ∧ (∀ model_loads' encodes' terms',
       (initialize model_loads encodes st terms).2 = true →
       initialize model_loads' encodes'
         (initialize model_loads encodes st terms).1 terms'
       = ((initialize model_loads encodes st terms).1, true)).
Proof.
  assert (Hiff : (initialize model_loads encodes st terms).2 = true ↔
    index_initialized (initialize model_loads encodes st terms).1 = true).
  { unfold initialize, rebuild_index.
    destruct (index_initialized st) eqn:Hi; [done|].
    destruct model_loads; simpl; [|by rewrite Hi].
    destruct (index_collection st) as [c|]; [|done].
    by destruct (_ =? _). }
  split; [done|]. split.
  - intros Hi. unfold initialize. by rewrite Hi.
  - intros ml' enc' terms' Hret. apply Hiff in Hret.
    unfold initialize at 1. by rewrite Hret.
Qed.

(** X25.  What the collection holds after a call that returns on an
    uninitialised service: as many entries as there are terms; it is the
    collection found in the store when that one has this size, whatever
    its documents are, and otherwise a new one with every term under the
    number of its position *)
Lemma initialize_collection (model_loads : bool)
    (encodes : list str → bool) (st : IndexState) (terms : list str) :
  index_initialized st = false →
  (initialize model_loads encodes st terms).2 = true →
  ∃ collection,
    index_collection (initialize model_loads encodes st terms).1
    = Some collection
    ∧ length collection = length terms
    ∧ match index_collection st with
      | Some found =>
          if decide (length found = length terms)
          then collection = found
          else collection = numbered 0 terms
      | None => collection = numbered 0 terms
      end.
Proof.
  intros Hi. unfold initialize. rewrite Hi.
  destruct model_loads; simpl; [|done].
  assert (Hrebuild : (rebuild_index encodes terms).2 = true →
            index_collection (rebuild_index encodes terms).1
            = Some (numbered 0 terms)).
  { unfold rebuild_index. simpl. intros Hok.
    destruct (add_batches_prefix encodes (index_batches terms) [])
      as (added & _ & Hc & Hall).
    rewrite Hc, (Hall Hok). simpl.
    by rewrite index_batches_concat. }
  assert (Hlen : length (numbered 0 terms) = length terms).
  { unfold numbered. rewrite length_zip_with, length_seq. lia. }
  destruct (index_collection st) as [found|].
  - destruct (Nat.eqb_spec (length found) (length terms)) as [E|Hne].
    + intros _. exists found. simpl. by rewrite decide_True.
    + intros Hok. exists (numbered 0 terms).
      rewrite decide_False by done. by rewrite Hrebuild.
  - intros Hok. exists (numbered 0 terms). by rewrite Hrebuild.
Qed.
End IndexFacts.

(** ** The history log *)

Section HistoryFacts.

Lemma py_prefix_take {A : Type} (l : list A) (n : Z) :
  (0 ≤ n)%Z → py_prefix l n = take (Z.to_nat n) l.
Proof. intros Hn. unfold py_prefix. by destruct (Z.leb_spec 0 n); [|lia]. Qed.

Lemma py_prefix_prefix {A : Type} (l : list A) (n : Z) :
  py_prefix l n `prefix_of` l.
Proof. unfold py_prefix. destruct (0 <=? n)%Z; apply prefix_take. Qed.

Lemma prefix_is_sublist {A : Type} (l k : list A) :
  l `prefix_of` k → l `sublist_of` k.
Proof. intros [rest ->]. by apply sublist_inserts_r. Qed.

Lemma add_record_load (hs : HistoryService) (query query_type : str)
    (results_count : Z) (now : str) :
  writable hs = true →
  (0 ≤ max_items hs)%Z →
  load_history (add_record hs query query_type results_count now)
  = take (Z.to_nat (max_items hs))
         (HistoryRecord.mk query query_type results_count now
            :: load_history hs).
Proof.
  intros Hw Hmax.
  unfold add_record, save_history. rewrite Hw. unfold load_history at 1.
  simpl.
  destruct (Z.ltb_spec (max_items hs)
              (Z.of_nat (S (length (load_history hs))))) as [Hlt|Hge].
  - by rewrite py_prefix_take.
  - rewrite take_ge; [done|]. simpl. lia.
Qed.

(** X26.  Adding a record to a writable log that keeps at most [max_items]
    records: the new record comes first, the older ones follow in their
    order, and the oldest are dropped beyond [max_items]; a file that
    could not be read counts as empty *)
Lemma add_record_spec (hs : HistoryService) (query query_type : str)
    (results_count : Z) (now : str) :
  writable hs = true →
  (0 ≤ max_items hs)%Z →
  load_history (add_record hs query query_type results_count now)
  = take (Z.to_nat (max_items hs))
         (HistoryRecord.mk query query_type results_count now
            :: load_history hs)
  ∧ (Z.of_nat (length (load_history
                         (add_record hs query query_type results_count now)))
     ≤ max_items hs)%Z
  ∧ ((1 ≤ max_items hs)%Z →
     get_recent (add_record hs query query_type results_count now) 1
     = [HistoryRecord.mk query query_type results_count now])
  ∧ max_items (add_record hs query query_type results_count now)
    = max_items hs
  ∧ writable (add_record hs query query_type results_count now) = true.
Proof.
  intros Hw Hmax.
  pose proof (add_record_load hs query query_type results_count now Hw Hmax)
    as E.
  split; [done|]. split; [|split; [|split]].
  - rewrite E, length_take. lia.
  - intros H1. unfold get_recent. rewrite E, py_prefix_take by lia.
    destruct (Z.to_nat (max_items hs)) as [|m] eqn:Em; [lia|].
    simpl. by rewrite take_0.
  - unfold add_record, save_history. by rewrite Hw.
  - unfold add_record, save_history. by rewrite Hw.
Qed.

(** when the file cannot be written, the failure is swallowed and the log
    stays as it was: the record is lost *)
Lemma add_record_read_only (hs : HistoryService) (query query_type : str)
    (results_count : Z) (now : str) :
  writable hs = false →
  add_record hs query query_type results_count now = hs
  ∧ clear_history hs = hs.
Proof.
  intros Hw. unfold add_record, clear_history, save_history.
  by rewrite Hw.
Qed.

(** X27.  [get_recent] and [get_by_type] return the first records, in the
    order of the log; with a limit that is not negative, at most [limit]
    of them; a negative limit leaves out that many of the oldest instead *)
Lemma history_queries (hs : HistoryService) (query_type : str) (limit : Z) :
  get_recent hs limit `prefix_of` load_history hs
  ∧ get_by_type hs query_type limit `sublist_of` load_history hs
  ∧ Forall (λ h, HistoryRecord.type h = query_type)
           (get_by_type hs query_type limit)
  ∧ ((0 ≤ limit)%Z →
     length (get_recent hs limit)
     = Nat.min (Z.to_nat limit) (length (load_history hs))
     ∧ (Z.of_nat (length (get_by_type hs query_type limit)) ≤ limit)%Z)
  ∧ ((limit < 0)%Z →
     length (get_recent hs limit)
     = length (load_history hs) - Z.to_nat (- limit)).
Proof.
  unfold get_recent, get_by_type.
  split; [apply py_prefix_prefix|]. split; [|split; [|split]].
  - etransitivity; [apply prefix_is_sublist, py_prefix_prefix|].
    apply sublist_filter.
  - apply Forall_forall. intros h Hh.
    eapply elem_of_prefix in Hh; [|apply py_prefix_prefix].
    by apply list_elem_of_filter in Hh as [? _].
  - intros Hl. rewrite !py_prefix_take by done.
    rewrite !length_take. split; lia.
  - intros Hl. unfold py_prefix.
    destruct (Z.leb_spec 0 limit); [lia|]. rewrite length_take. lia.
Qed.

Lemma count_type_lookup (counts : gmap str nat) (record : HistoryRecord.t)
    (query_type : str) :
  default 0 (count_type counts record !! query_type)
  = default 0 (counts !! query_type)
    + (if decide (HistoryRecord.type record = query_type) then 1 else 0).
Proof.
  unfold count_type. rewrite lookup_insert.
  destruct (decide (HistoryRecord.type record = query_type)) as [->|Hne];
    simpl; lia.
Qed.

Lemma type_counts_foldl (history : list HistoryRecord.t)
    (counts : gmap str nat) (query_type : str) :
  default 0 (foldl count_type counts history !! query_type)
  = default 0 (counts !! query_type)
    + length (filter (λ h, HistoryRecord.type h = query_type) history).
Proof.
  revert counts. induction history as [|h history IH]; intros counts; simpl.
  - lia.
  - rewrite IH, count_type_lookup, filter_cons.
    destruct (decide (HistoryRecord.type h = query_type)); simpl; lia.
Qed.

Lemma type_counts_positive (history : list HistoryRecord.t)
    (counts : gmap str nat) (query_type : str) (n : nat) :
  (∀ ty k, counts !! ty = Some k → 0 < k) →
  foldl count_type counts history !! query_type = Some n → 0 < n.
Proof.
  revert counts. induction history as [|h history IH]; intros counts Hpos;
    simpl; [by apply Hpos|].
  apply IH. intros ty k. unfold count_type. rewrite lookup_insert.
  destruct (decide (HistoryRecord.type h = ty)); [|by apply Hpos].
  intros [= <-]. lia.
Qed.

(** X28.  The statistics of the log: the count of a type is the number of
    the records of that type, a type without record has no count, the
    counts are what [get_by_type] returns when the limit is large enough,
    and the newest and the oldest record are the first and the last *)
Lemma history_stats_counts (hs : HistoryService) :
  HistoryStats.total_records (history_stats hs) = length (load_history hs)
  ∧ (∀ query_type,
       default 0 (HistoryStats.type_counts (history_stats hs) !! query_type)
       = length (filter (λ h, HistoryRecord.type h = query_type)
                        (load_history hs)))
  ∧ (∀ query_type,
       HistoryStats.type_counts (history_stats hs) !! query_type = None ↔
       Forall (λ h, HistoryRecord.type h ≠ query_type) (load_history hs))
  ∧ (∀ query_type limit,
       (Z.of_nat (length (load_history hs)) ≤ limit)%Z →
       length (get_by_type hs query_type limit)
       = default 0 (HistoryStats.type_counts (history_stats hs)
                      !! query_type))
  ∧ HistoryStats.newest_record (history_stats hs)
    = HistoryRecord.timestamp <$> head (load_history hs)
  ∧ HistoryStats.oldest_record (history_stats hs)
    = HistoryRecord.timestamp <$> last (load_history hs).
Proof.
  unfold history_stats. simpl.
  assert (Hcount : ∀ query_type,
    default 0 (foldl count_type ∅ (load_history hs) !! query_type)
    = length (filter (λ h, HistoryRecord.type h = query_type)
                     (load_history hs))).
  { intros ty. rewrite type_counts_foldl, lookup_empty. simpl. lia. }
  split; [done|]. split; [done|]. split; [|split; [|done]].
  - intros ty. specialize (Hcount ty). split.
    + intros Hnone. rewrite Hnone in Hcount. simpl in Hcount.
      symmetry in Hcount. apply length_zero_iff_nil in Hcount.
      apply Forall_forall. intros h Hh Hty.
      assert (Hin : h ∈ filter (λ h, HistoryRecord.type h = ty)
                               (load_history hs))
        by (by apply list_elem_of_filter).
      rewrite Hcount in Hin. by apply elem_of_nil in Hin.
    + intros Hall.
      destruct (foldl count_type ∅ (load_history hs) !! ty) as [n|] eqn:E;
        [|done].
      exfalso. apply type_counts_positive in E;
        [|intros ? ?; by rewrite lookup_empty].
      simpl in Hcount.
      destruct (filter _ (load_history hs)) as [|h l] eqn:Ef;
        [simpl in Hcount; lia|].
      assert (Hin : h ∈ filter (λ h, HistoryRecord.type h = ty)
                               (load_history hs))
        by (rewrite Ef; left).
      apply list_elem_of_filter in Hin as [Hty Hin].
      eapply Forall_forall in Hall; [|exact Hin]. done.
  - intros ty limit Hl. rewrite Hcount. unfold get_by_type.
    rewrite py_prefix_take by lia. rewrite take_ge; [done|].
    pose proof (length_filter (λ h, HistoryRecord.type h = ty)
                  (load_history hs)). lia.
Qed.
End HistoryFacts.

(** ** The endpoints *)

Section EndpointFacts.
Context {runtime : PyRuntime}.

(** the query written to the log is the text when it has at most 100
    characters, and otherwise its first 100 characters and three dots *)
Lemma history_query_length (term : str) :
  length (history_query term) ≤ 103
  ∧ (length term ≤ 100 → history_query term = term)
  ∧ (100 < length term →
     length (history_query term) = 103
     ∧ take 100 (history_query term) = take 100 term).
Proof.
  unfold history_query.
  destruct (Nat.ltb_spec 100 (length term)) as [Hlong|Hshort].
  - assert (Hl : length (take 100 term) = 100)
      by (rewrite length_take; lia).
    split; [rewrite length_app, Hl; simpl; lia|].
    split; [lia|]. intros _.
    split; [rewrite length_app, Hl; simpl; lia|].
    rewrite take_app_le by lia. rewrite take_ge by lia. done.
  - split; [lia|]. split; [done|lia].
Qed.

(** X29.  [POST /api/standardize]: when the text pass returns, the
    response is its result, and the log receives one record, of type
    [text_standardize], that holds the shortened text and the number of
    replacement records; when the text pass raises, the response is 500
    and the log is left as it was *)
Lemma api_standardize_logs (ts : TermService) (hs : HistoryService)
    (term : str) (threshold : Z) (now : str) :
  match identify_and_replace_terms ts term (inject_Z threshold / 100) 2 with
  | Returns result =>
      (api_standardize ts hs term threshold now).1 = Ok result
      ∧ (writable hs = true → (1 ≤ max_items hs)%Z →
         head (load_history (api_standardize ts hs term threshold now).2)
         = Some (HistoryRecord.mk (history_query term)
                   (py "text_standardize")
                   (Z.of_nat (length (TextResult.replacements result)))
                   now)
         ∧ tail (load_history (api_standardize ts hs term threshold now).2)
           `prefix_of` load_history hs)
  | Raises _ =>
      api_standardize ts hs term threshold now = (Http500, hs)
  end.
Proof.
  unfold api_standardize.
  destruct (identify_and_replace_terms ts term _ 2) as [result|e]; [|done].
  simpl. split; [done|]. intros Hw Hmax.
  rewrite (add_record_load hs (history_query term) (py "text_standardize")
             (Z.of_nat (length (TextResult.replacements result))) now Hw)
    by lia.
  destruct (Z.to_nat (max_items hs)) as [|m] eqn:Em; [lia|].
  simpl. split; [done|]. apply prefix_take.
Qed.

(** the empty text is answered with the unchanged result and still logged,
    with the count 0 *)
Lemma api_standardize_empty (ts : TermService) (hs : HistoryService)
    (threshold : Z) (now : str) :
  api_standardize ts hs [] threshold now
  = (Ok (TextResult.mk [] [] [] [] None MsgNoText),
     add_record hs [] (py "text_standardize") 0 now).
Proof. reflexivity. Qed.

Lemma batch_texts_spec (ts : TermService) (threshold : Z)
    (texts : list str) (results : list TextResult.t) :
  match batch_texts ts threshold texts results with
  | Returns all =>
      ∃ new, all = results ++ new
             ∧ Forall2 (λ text r,
                          identify_and_replace_terms ts text
                            (inject_Z threshold / 100) 2 = Returns r)
                       texts new
  | Raises e =>
      ∃ before text after,
        texts = before ++ text :: after
        ∧ identify_and_replace_terms ts text (inject_Z threshold / 100) 2
          = Raises e
        ∧ Forall (λ t, ∃ r, identify_and_replace_terms ts t
                              (inject_Z threshold / 100) 2 = Returns r)
                 before
  end.
Proof.
  revert results. induction texts as [|text texts IH]; intros results; simpl.
  - exists []. split; [by rewrite app_nil_r|constructor].
  - destruct (identify_and_replace_terms ts text _ 2) as [r|e] eqn:E; simpl.
    + specialize (IH (results ++ [r])).
      destruct (batch_texts ts threshold texts (results ++ [r])) as [all|e].
      * destruct IH as (new & -> & Hf). exists (r :: new).
        split; [by rewrite <- app_assoc|by constructor].
      * destruct IH as (before & t & after & -> & Ht & Hb).
        exists (text :: before), t, after.
        split; [done|]. split; [done|]. constructor; [by exists r|done].
    + exists [], text, texts. split; [done|]. split; [done|constructor].
Qed.

(** X30.  [POST /api/batch-standardize] is all or nothing: when the text
    pass returns on every text, the response holds one result per text, in
    the order of the texts; when it raises on one text, the response is
    500, the results of the other texts are lost and nothing is logged *)
Lemma api_batch_all_or_nothing (ts : TermService) (hs : HistoryService)
    (terms : list str) (threshold : Z) (now : str) :
  match (api_batch_standardize ts hs terms threshold now).1 with
  | Ok results =>
      Forall2 (λ text r,
                 identify_and_replace_terms ts text
                   (inject_Z threshold / 100) 2 = Returns r)
              terms results
      ∧ (api_batch_standardize ts hs terms threshold now).2
        = add_record hs (batch_history_query (length terms))
            (py "batch_text_standardize")
            (Z.of_nat (replacement_total results)) now
  | Http500 =>
      (api_batch_standardize ts hs terms threshold now).2 = hs
      ∧ Exists (λ text, ∃ e, identify_and_replace_terms ts text
                               (inject_Z threshold / 100) 2 = Raises e)
               terms
  end.
Proof.
  unfold api_batch_standardize.
  pose proof (batch_texts_spec ts threshold terms []) as Hspec.
  destruct (batch_texts ts threshold terms []) as [results|e]; simpl.
  - destruct Hspec as (new & -> & Hf). done.
  - destruct Hspec as (before & text & after & -> & Ht & _).
    split; [done|]. apply Exists_app. right. left. by exists e.
Qed.

(** [POST /api/search]: an uninitialised vector service gives the response
    500 and no record; the empty query gives an empty result and is logged
    with the count 0; otherwise the count logged is the number of the
    results *)
Lemma api_search_cases (vs : VectorService) (hs : HistoryService)
    (query : str) (top_k : Z) (now : str) :
  (is_initialized vs = false →
   api_search vs hs query top_k now = (Http500, hs))
  ∧ (is_initialized vs = true →
     api_search vs hs [] top_k now
     = (Ok [], add_record hs [] (py "search") 0 now))
  ∧ (∀ results,
       (api_search vs hs query top_k now).1 = Ok results →
       search_similar vs query top_k = Returns results
       ∧ (api_search vs hs query top_k now).2
         = add_record hs query (py "search")
             (Z.of_nat (length results)) now).
Proof.
  unfold api_search, search_similar. split; [|split].
  - by intros ->.
  - by intros ->.
  - intros results.
    destruct (if negb (is_initialized vs) then _ else _) as [rs|e];
      simpl; [|done].
    by intros [= ->].
Qed.
End EndpointFacts.

(** ** Further worked inputs *)

Section MoreWorkedInputs.
#[local] Existing Instance ascii_runtime.

Lemma standardize_threshold_monotone_witness :
  (1 # 2 <= 65 # 100)%Q
  ∧ MatchResult.match_type
      (standardize demo_ts (py "Credit Risk") (65 # 100)) = Semantic
  ∧ standardize demo_ts (py "Credit Risk") (1 # 2)
    = standardize demo_ts (py "Credit Risk") (65 # 100).
Proof.
  assert (Hle : (1 # 2 <= 65 # 100)%Q) by (vm_compute; discriminate).
  split; [exact Hle|]. split; [reflexivity|].
  apply (standardize_threshold_monotone demo_ts (py "Credit Risk")
           (65 # 100) (1 # 2) Hle).
  reflexivity.
Defined.

Lemma standardize_exact_case_blind_witness :
  lower (py "roe") = lower (py "ROE")
  ∧ MatchResult.standard_term (standardize demo_ts (py "ROE") (9 # 10))
    = MatchResult.standard_term (standardize demo_ts (py "roe") (65 # 100)).
Proof.
  split; [reflexivity|].
  destruct (standardize_exact_case_blind demo_ts (py "roe") (py "ROE")
              (65 # 100) (9 # 10)) as [_ Hstd].
  - vm_compute. discriminate.
  - vm_compute. discriminate.
  - reflexivity.
  - apply Hstd. reflexivity.
Defined.

Lemma standardize_first_row_wins_witness :
  MatchResult.match_type (standardize demo_ts (py "roe") (65 # 100)) = Exact
  ∧ MatchResult.standard_term (standardize demo_ts (py "roe") (65 # 100))
    = Some (py "ROE").
Proof.
  apply (standardize_first_row_wins demo_ts (py "roe") (65 # 100)
           [Row.mk (py "API") None]
           (Row.mk (py "ROE") (Some (py "ratio"))) []).
  - vm_compute. discriminate.
  - reflexivity.
  - constructor; [|constructor]. vm_compute. discriminate.
  - reflexivity.
Defined.

Lemma standardize_without_service_witness :
  ready_service cold_ts = None
  ∧ standardize cold_ts (py "Credit Risk") (65 # 100)
    = standardize (without_service cold_ts) (py "Credit Risk") (65 # 100)
  ∧ (MatchResult.match_type
       (standardize cold_ts (py "Credit Risk") (65 # 100)) = Exact
     ∨ MatchResult.match_type
         (standardize cold_ts (py "Credit Risk") (65 # 100)) = NoMatch).
Proof.
  split; [reflexivity|].
  apply (standardize_without_service cold_ts (py "Credit Risk") (65 # 100)).
  reflexivity.
Defined.

Lemma standardize_score_range_witness :
  (0 <= MatchResult.score
          (standardize demo_ts (py "Credit Risk") (65 # 100)) <= 100)%Q
  ∧ Forall (λ c, (0 <= Candidate.score c <= 100)%Q)
           (MatchResult.candidates
              (standardize demo_ts (py "Credit Risk") (65 # 100))).
Proof.
  apply (standardize_score_range demo_ts (py "Credit Risk") (65 # 100)).
  intros vs results r Hvs Hres Hr.
  injection Hvs as <-. vm_compute in Hres. injection Hres as <-.
  apply elem_of_cons in Hr as [->|Hr].
  - vm_compute. split; discriminate.
  - apply list_elem_of_singleton in Hr as ->.
    vm_compute. split; discriminate.
Defined.

Lemma batch_standardize_blank_witness :
  batch_standardize demo_ts [py "  "; py "roe"] (65 # 100) !! 0
  = Some empty_query_result.
Proof.
  apply (batch_standardize_blank demo_ts [py "  "; py "roe"] (65 # 100) 0
           (py "  ")).
  - reflexivity.
  - repeat constructor.
Defined.

Lemma load_data_keeps_variants_witness :
  py " ROE" ≠ py "ROE"
  ∧ strip (py " ROE") = strip (py "ROE")
  ∧ terms_list (load_data [(Some (py " ROE"), None);
                           (Some (py "ROE"), Some (py "ratio"))])
    = [py "ROE"; py "ROE"]
  ∧ length (search_exact
              (load_data [(Some (py " ROE"), None);
                          (Some (py "ROE"), Some (py "ratio"))])
              (strip (py " ROE"))) = 2.
Proof.
  assert (Hne : py " ROE" ≠ py "ROE") by (vm_compute; discriminate).
  split; [exact Hne|]. split; [reflexivity|].
  destruct (load_data_keeps_variants (py " ROE") (py "ROE") None
              (Some (py "ratio")) Hne eq_refl) as [Hterms Hhits].
  split; [exact Hterms|].
  rewrite Hhits. reflexivity.
Defined.

Lemma identified_terms_facts_witness :
  ∃ r, identify_and_replace_terms demo_ts (py "Credit Risk management")
         (6 # 10) 2 = Returns r
       ∧ length (TextResult.identified_terms r) = 2
       ∧ Forall (λ item,
                   IdentifiedTerm.original item ≠ []
                   ∧ IdentifiedTerm.match_type item = Semantic
                   ∧ (6 # 10 <= IdentifiedTerm.similarity item)%Q)
                (TextResult.identified_terms r).
Proof.
  destruct (identify_and_replace_terms demo_ts (py "Credit Risk management")
              (6 # 10) 2) as [r|e] eqn:E; [|vm_compute in E; discriminate].
  exists r. split; [reflexivity|]. split.
  - vm_compute in E. injection E as <-. reflexivity.
  - apply Forall_forall. intros item Hitem.
    destruct (identified_terms_facts demo_ts (py "Credit Risk management")
                (6 # 10) 2 r item E Hitem)
      as (Hne & _ & [(Hex & _)|(Hsem & Hth & _)]).
    + exfalso. vm_compute in E. injection E as <-.
      apply elem_of_cons in Hitem as [->|Hitem]; [discriminate Hex|].
      apply list_elem_of_singleton in Hitem as ->. discriminate Hex.
    + done.
Defined.

Lemma identified_originals_distinct_witness :
  ∃ r, identify_and_replace_terms demo_ts (py "Credit Risk management")
         (6 # 10) 2 = Returns r
       ∧ NoDup ((λ item, lower (IdentifiedTerm.original item))
                  <$> TextResult.identified_terms r).
Proof.
  destruct (identify_and_replace_terms demo_ts (py "Credit Risk management")
              (6 # 10) 2) as [r|e] eqn:E; [|vm_compute in E; discriminate].
  exists r. split; [reflexivity|].
  apply (identified_originals_distinct demo_ts (py "Credit Risk management")
           (6 # 10) 2 r E).
Defined.

Lemma replacement_records_facts_witness :
  ∃ r, identify_and_replace_terms demo_ts (py "Credit Risk management")
         (6 # 10) 2 = Returns r
       ∧ length (TextResult.replacements r)
         ≤ length (TextResult.identified_terms r)
       ∧ (∀ total, TextResult.total_replacements r = Some total →
                   length (TextResult.replacements r) ≤ total).
Proof.
  destruct (identify_and_replace_terms demo_ts (py "Credit Risk management")
              (6 # 10) 2) as [r|e] eqn:E; [|vm_compute in E; discriminate].
  exists r. split; [reflexivity|].
  destruct (replacement_records_facts demo_ts (py "Credit Risk management")
              (6 # 10) 2 r E) as (_ & _ & Hlen & Htotal & _).
  split; [exact Hlen|exact Htotal].
Defined.

Lemma text_without_letters_witness :
  py "2024 100%" ≠ []
  ∧ ready_service demo_ts = Some demo_vs
  ∧ extract_terms (py "2024 100%") 2 = []
  ∧ identify_and_replace_terms demo_ts (py "2024 100%") (6 # 10) 2
    = Returns (TextResult.mk (py "2024 100%") (py "2024 100%") [] []
                 (Some 0) (MsgReplaced 0 0)).
Proof.
  assert (Htext : py "2024 100%" ≠ []) by (vm_compute; discriminate).
  split; [exact Htext|]. split; [reflexivity|].
  destruct (text_without_letters demo_ts demo_vs (py "2024 100%") (6 # 10) 2
              Htext eq_refl) as (Hnone & _ & Hres).
  - repeat constructor.
  - split; [exact Hnone|exact Hres].
Defined.

Lemma get_similar_terms_excludes_self_witness :
  SimilarTerm.mk (py "CreditRiskStd") (4 # 5)
  ∈ get_similar_terms demo_ts (py "Credit Risk") 3 (1 # 2)
  ∧ lower (py "CreditRiskStd") ≠ lower (py "Credit Risk").
Proof.
  assert (Hin : SimilarTerm.mk (py "CreditRiskStd") (4 # 5)
                ∈ get_similar_terms demo_ts (py "Credit Risk") 3 (1 # 2))
    by (vm_compute; left).
  split; [exact Hin|].
  apply (get_similar_terms_excludes_self demo_ts (py "Credit Risk") 3
           (1 # 2) _ Hin).
Defined.

Lemma get_similar_terms_length_witness :
  (1 ≤ 1)%Z
  ∧ (Z.of_nat (length (get_similar_terms demo_ts (py "Credit Risk") 1
                         (1 # 2))) ≤ 1)%Z.
Proof.
  split; [lia|].
  apply (get_similar_terms_length demo_ts (py "Credit Risk") 1 (1 # 2)).
  lia.
Defined.


Lemma initialize_collection_witness :
  index_initialized stale_index = false
  ∧ (initialize true (λ _, true) stale_index [py "API"; py "ROE"]).2 = true
  ∧ index_collection
      (initialize true (λ _, true) stale_index [py "API"; py "ROE"]).1
    = Some [IndexEntry.mk 0 (py "API"); IndexEntry.mk 1 (py "ROE")].
Proof.
  split; [reflexivity|]. split; [reflexivity|].
  destruct (initialize_collection true (λ _, true) stale_index
              [py "API"; py "ROE"] eq_refl eq_refl)
    as (collection & Hc & _ & Hnew).
  rewrite Hc. f_equal. exact Hnew.
Defined.

Lemma add_record_spec_witness :
  writable demo_hs = true
  ∧ (0 ≤ max_items demo_hs)%Z
  ∧ load_history (add_record demo_hs (py "risk") (py "search") 1 (py "t3"))
    = [HistoryRecord.mk (py "risk") (py "search") 1 (py "t3");
       HistoryRecord.mk (py "roe") (py "search") 3 (py "t2")].
Proof.
  assert (Hmax : (0 ≤ max_items demo_hs)%Z) by (simpl; lia).
  split; [reflexivity|]. split; [exact Hmax|].
  destruct (add_record_spec demo_hs (py "risk") (py "search") 1 (py "t3")
              eq_refl Hmax) as (E & _).
  rewrite E. reflexivity.
Defined.
End MoreWorkedInputs.
